(** * PP-LAB: the two MPI lab programs, embedded and verified

    [src/phonebook_mpi.cpp]  parallel substring search in a phone book
    [src/matrix_mul_mpi.c]   batched matrix multiplication modulo 100

    The embedding is shallow.  C and C++ [int] values are integers in [Z]
    with the 32-bit wrap-around written out ([to_int]); [size_t] values are
    integers modulo 2^64 ([to_size_t]); [std::string] is a list of
    characters; code that can throw, abort or leave defined behaviour
    returns [option]; the MPI point-to-point channel is a FIFO queue of
    messages that is threaded through [send_string] and [receive_string].

    Signed overflow is undefined in C and C++: where a theorem needs a
    count or a length to be representable in an [int], it says so in a
    hypothesis of the form [_ <= INT_MAX]. *)

From Stdlib Require Import ZArith Lia Ascii String.
From stdpp Require Import prelude gmap.

Local Open Scope Z_scope.

(** ** Machine integers *)

Module CInt.

Definition INT_MAX : Z := 2 ^ 31 - 1.
Definition INT_MIN : Z := - 2 ^ 31.

(** Conversion to a 32-bit [int]: two's complement wrap-around. *)
Definition to_int (z : Z) : Z := (z + 2 ^ 31) mod 2 ^ 32 - 2 ^ 31.

(** Conversion to a 64-bit [size_t]. *)
Definition to_size_t (z : Z) : Z := z mod 2 ^ 64.

(** [std::string::npos], the largest [size_t]. *)
Definition npos : Z := 2 ^ 64 - 1.

Definition in_int (z : Z) : Prop := INT_MIN <= z <= INT_MAX.

End CInt.
Export CInt.

(** ** Control flow *)

(** [for (int i = lo; i < hi; i++) body] with a body that may fail.  The
    loop runs [max 0 (hi - lo)] times and the counter stays in [lo, hi]. *)
Fixpoint for_loop {St : Type} (n : nat) (i : Z)
    (body : Z -> St -> option St) (s : St) : option St :=
  match n with
  | O => Some s
  | S n' => s' ← body i s; for_loop n' (i + 1) body s'
  end.

Definition for_range {St : Type} (lo hi : Z)
    (body : Z -> St -> option St) (s : St) : option St :=
  for_loop (Z.to_nat (hi - lo)) lo body s.

(** The same loop with a body that cannot fail. *)
Fixpoint pure_loop {St : Type} (n : nat) (i : Z)
    (body : Z -> St -> St) (s : St) : St :=
  match n with
  | O => s
  | S n' => pure_loop n' (i + 1) body (body i s)
  end.

Definition pure_range {St : Type} (lo hi : Z)
    (body : Z -> St -> St) (s : St) : St :=
  pure_loop (Z.to_nat (hi - lo)) lo body s.

(** [for (auto &x : xs) body] and [while (getline(in, x)) body]. *)
Fixpoint for_each {A St : Type} (xs : list A)
    (body : A -> St -> option St) (s : St) : option St :=
  match xs with
  | [] => Some s
  | x :: xs' => s' ← body x s; for_each xs' body s'
  end.

(** [v[i]] on a [std::vector] or an array: defined inside the bounds only. *)
Definition vec_at {A : Type} (v : list A) (i : Z) : option A :=
  if i <? 0 then None else v !! Z.to_nat i.

(** ** std::string *)

Module CppString.

Abbreviation str := (list ascii).

Definition of_string (s : string) : str := list_ascii_of_string s.
Coercion of_string : string >-> list.

Definition nl : ascii := "010"%char.      (* '\n' *)
Definition nul : ascii := "000"%char.     (* '\0' *)
Definition comma : ascii := ","%char.
Definition dquote : ascii := "034"%char.  (* the double quote *)
Definition space : ascii := " "%char.

Definition str_size (s : str) : Z := Z.of_nat (length s).

Definition str_empty (s : str) : bool :=
  match s with [] => true | _ :: _ => false end.

(** Does [pat] occur at the front of [s]? *)
Fixpoint starts_with (pat s : str) : bool :=
  match pat, s with
  | [], _ => true
  | _ :: _, [] => false
  | a :: pat', b :: s' => if Ascii.eqb a b then starts_with pat' s' else false
  end.

(** [s.find(pat)], scanning a suffix of the string that begins at position
    [i]: the lowest position at which [pat] occurs.  [None] stands for the
    sentinel [npos], which no position can equal ([max_size() < npos]). *)
Fixpoint find_from (pat s : str) (i : Z) {struct s} : option Z :=
  if starts_with pat s then Some i
  else match s with
       | [] => None
       | _ :: s' => find_from pat s' (i + 1)
       end.

Definition find (s pat : str) : option Z := find_from pat s 0.

(** The [size_t] that [find] hands back. *)
Definition pos_or_npos (r : option Z) : Z := default npos r.

(** [s.substr(pos, n)]: throws [std::out_of_range] when [pos > size()],
    otherwise yields the characters [pos, pos + min(n, size() - pos)).
    Both arguments are [size_t] values. *)
Definition substr (s : str) (pos n : Z) : option str :=
  if str_size s <? pos then None
  else Some (take (Z.to_nat (Z.min n (str_size s - pos)))
               (drop (Z.to_nat pos) s)).

(** The lines that successive [getline] calls extract: a line ends at
    ['\n'] (consumed, not stored) or at the end of the input; at the end
    of the input an extraction that read no character fails, which ends
    the [while (getline ...)] loop. *)
Fixpoint getlines_from (cur s : str) : list str :=
  match s with
  | [] => match cur with [] => [] | _ :: _ => [cur] end
  | c :: s' =>
      if Ascii.eqb c nl then cur :: getlines_from [] s'
      else getlines_from (cur ++ [c]) s'
  end.

Definition getlines (s : str) : list str := getlines_from [] s.

(** [std::string(const char *buf)] on a buffer of known extent: the
    characters before the first NUL; running past a buffer that holds no
    NUL is undefined. *)
Fixpoint from_c_str (buf : str) : option str :=
  match buf with
  | [] => None
  | c :: buf' =>
      if Ascii.eqb c nul then Some []
      else r ← from_c_str buf'; Some (c :: r)
  end.

(** [s.c_str()]: the characters of [s] followed by the terminator. *)
Definition c_str (s : str) : str := s ++ [nul].

End CppString.
Export CppString.

(** ** The message channel *)

Module Mpi.

(** One MPI message: [count] elements of [MPI_INT] or of [MPI_CHAR]. *)
Inductive message : Type :=
  | MInt (v : Z)
  | MChars (buf : str).

(** The messages in flight, a FIFO queue per ordered pair (sender,
    receiver).  The programs use one communicator and one tag, and MPI
    does not reorder the messages of one pair. *)
Abbreviation network := (gmap (Z * Z) (list message)).

Definition in_flight (net : network) (src dst : Z) : list message :=
  default [] (net !! (src, dst)).

Definition MPI_Send (m : message) (src dst : Z) (net : network) : network :=
  <[(src, dst) := in_flight net src dst ++ [m]]> net.

(** A blocking receive.  [None] when nothing was sent: the caller would
    wait for ever. *)
Definition MPI_Recv (src dst : Z) (net : network) : option (message * network) :=
  match in_flight net src dst with
  | [] => None
  | m :: q => Some (m, <[(src, dst) := q]> net)
  end.

(** [send_string(text, receiver)], called by rank [me]
    (phonebook_mpi.cpp, lines 22-26).  A negative element count makes
    [MPI_Send] abort the run. *)
Definition send_string (text : str) (me receiver : Z) (net : network)
    : option network :=
  let len := to_int (str_size text + 1) in
  let net := MPI_Send (MInt len) me receiver net in
  if len <? 0 then None
  else Some (MPI_Send (MChars (take (Z.to_nat len) (c_str text))) me receiver net).

(** [receive_string(sender)], called by rank [me] (lines 29-37).
    [new char[len]] throws for a negative length; a message longer than
    the buffer is an MPI truncation error. *)
Definition receive_string (sender me : Z) (net : network)
    : option (str * network) :=
  '(m, net) ← MPI_Recv sender me net;
  match m with
  | MChars _ => None
  | MInt len =>
      if len <? 0 then None
      else
        '(m, net) ← MPI_Recv sender me net;
        match m with
        | MInt _ => None
        | MChars buf =>
            if len <? str_size buf then None
            else res ← from_c_str buf; Some (res, net)
        end
  end.

End Mpi.
Export Mpi.

(** ** phonebook_mpi.cpp *)

Module Phonebook.

Record Contact : Type := mkContact { name : str; phone : str }.

(** Lines 40-46. *)
Definition vector_to_string (contacts : list Contact) (start end_ : Z)
    : option str :=
  for_range start (Z.min (to_int (Z.of_nat (length contacts))) end_)
    (fun i result =>
       c ← vec_at contacts i;
       Some (result ++ (name c ++ [comma] ++ phone c ++ [nl])))
    [].

(** The body of the loop of [string_to_contacts], lines 54-57. *)
Definition parse_line (line : str) (contacts : list Contact)
    : option (list Contact) :=
  if str_empty line then Some contacts
  else
    let comma := to_int (pos_or_npos (find line [comma])) in
    if to_size_t comma =? npos then Some contacts
    else
      n ← substr line 0 (to_size_t comma);
      p ← substr line (to_size_t (to_int (comma + 1))) npos;
      Some (contacts ++ [mkContact n p]).

(** Lines 49-60. *)
Definition string_to_contacts (text : str) : option (list Contact) :=
  for_each (getlines text) parse_line [].

(** Lines 63-68; [find(...) != npos] is "the search found a position". *)
Definition check (c : Contact) (search : str) : str :=
  match find (name c) search with
  | Some _ => name c ++ [space] ++ phone c ++ [nl]
  | None => []
  end.

(** The body of the inner loop of [read_phonebook], lines 76-80. *)
Definition read_line (line : str) (contacts : list Contact)
    : option (list Contact) :=
  if str_empty line then Some contacts
  else
    let comma := to_int (pos_or_npos (find line [comma])) in
    if to_size_t comma =? npos then Some contacts
    else
      n ← substr line 1 (to_size_t (to_int (comma - 2)));
      p ← substr line (to_size_t (to_int (comma + 2)))
                 (to_size_t (str_size line - to_size_t comma - 3));
      Some (contacts ++ [mkContact n p]).

(** Lines 71-83.  A file is given by its contents; a file that cannot be
    opened yields no line, like an empty one. *)
Definition read_phonebook (files : list str) (contacts : list Contact)
    : option (list Contact) :=
  for_each files
    (fun f contacts => for_each (getlines f) read_line contacts)
    contacts.

(** Line 110: [(total + size - 1) / size] in [int] arithmetic. *)
Definition chunk_of (total size : Z) : Z :=
  Z.quot (to_int (to_int (total + size) - 1)) size.

(** Rank 0, lines 109-116: one framed send per worker. *)
Definition master_distribute (size : Z) (contacts : list Contact)
    (net : network) : option network :=
  let total := to_int (Z.of_nat (length contacts)) in
  let chunk := chunk_of total size in
  for_range 1 size
    (fun i net =>
       text ← vector_to_string contacts
                (to_int (i * chunk)) (to_int (to_int (i + 1) * chunk));
       send_string text 0 i net)
    net.

(** Rank 0, lines 120-124: the search over the first block. *)
Definition master_search (size : Z) (contacts : list Contact) (search : str)
    : option str :=
  let total := to_int (Z.of_nat (length contacts)) in
  let chunk := chunk_of total size in
  for_range 0 (Z.min chunk total)
    (fun i result =>
       c ← vec_at contacts i;
       let match_ := check c search in
       Some (if negb (str_empty match_) then result ++ match_ else result))
    [].

(** Rank 0, lines 128-131: one framed receive per worker, in rank order. *)
Definition master_collect (size : Z) (result : str) (net : network)
    : option (str * network) :=
  for_range 1 size
    (fun i '(result, net) =>
       '(recv, net) ← receive_string i 0 net;
       Some (if negb (str_empty recv) then result ++ recv else result, net))
    (result, net).

(** The search loop of a worker, lines 148-152. *)
Definition worker_search (contacts : list Contact) (search : str) : str :=
  default []
    (for_each contacts
       (fun c result =>
          let match_ := check c search in
          Some (if negb (str_empty match_) then result ++ match_ else result))
       []).

(** A worker, lines 143-156. *)
Definition worker_main (rank : Z) (search : str) (net : network)
    : option network :=
  '(recv_text, net) ← receive_string 0 rank net;
  contacts ← string_to_contacts recv_text;
  let result := worker_search contacts search in
  send_string result rank 0 net.

(** What worker [rank] holds after line 143. *)
Definition worker_received (size : Z) (contacts : list Contact) (rank : Z)
    : option str :=
  net ← master_distribute size contacts ∅;
  fst <$> receive_string 0 rank net.

(** One run of [size] processes over the records [contacts]: the text
    that rank 0 writes to the output file.  Every operation blocks, so the
    outcome does not depend on how the processes interleave; the workers
    are run here in rank order between the two halves of rank 0. *)
Definition run (size : Z) (contacts : list Contact) (search : str)
    : option str :=
  net ← master_distribute size contacts ∅;
  result ← master_search size contacts search;
  net ← for_range 1 size (fun i net => worker_main i search net) net;
  fst <$> master_collect size result net.

(** [main], lines 99-161, for the whole group: [files] holds the contents
    of the files named on the command line, [search_term] is the last
    argument, and the result is the text written to [output.txt]. *)
Definition main (size : Z) (files : list str) (search_term : str)
    : option str :=
  contacts ← read_phonebook files [];
  run size contacts search_term.

(** The index range of the records that the code visits for [rank]:
    lines 121 (rank 0) and 114 with 42 (a worker). *)
Definition rank_range (total size rank : Z) : Z * Z :=
  let chunk := chunk_of total size in
  if rank =? 0 then (0, Z.min chunk total)
  else (to_int (rank * chunk), Z.min total (to_int (to_int (rank + 1) * chunk))).

(** The indices that [for (i = lo; i < hi; i++)] enumerates. *)
Definition indices (r : Z * Z) : list Z := seqZ (fst r) (snd r - fst r).

Definition block_length (r : Z * Z) : Z := Z.of_nat (length (indices r)).

(** The search kernel applied once to the whole data set. *)
Definition search_all (contacts : list Contact) (search : str) : str :=
  concat ((fun c => check c search) <$> contacts).

End Phonebook.

(** ** matrix_mul_mpi.c *)

Module Matrix.

(** [int X[K][M][N]]: [K] matrices, each a list of rows. *)
Abbreviation tensor := (list (list (list Z))).

Record dims : Type := mkDims { K : Z; M : Z; N : Z; P : Z }.

(** Line 32. *)
Definition program_dims : dims := mkDims 100 50 50 50.

(** [X[k][i][j]]. *)
Definition cell (X : tensor) (k i j : Z) : Z :=
  default 0 (m ← vec_at X k; row ← vec_at m i; vec_at row j).

(** Lines 84-88: one element of the local result. *)
Definition dot_cell (N : Z) (localA localB : tensor) (k i j : Z) : Z :=
  let r :=
    pure_range 0 N
      (fun l r =>
         to_int (r + Z.rem (to_int (cell localA k i l * cell localB k l j)) 100))
      0 in
  Z.rem r 100.

(** Lines 81-91: the local multiplication of [Kl] matrix pairs. *)
Definition kernel (Kl M N P : Z) (localA localB : tensor) : tensor :=
  (fun k =>
     (fun i =>
        (fun j => dot_cell N localA localB k i j) <$> seqZ 0 P) <$> seqZ 0 M)
    <$> seqZ 0 Kl.

(** [MPI_Scatter] from rank 0, seen from [rank]: the block of [count]
    matrices that starts at matrix [rank * count].  The element count
    [(K / size) * M * N] of the call is [K / size] whole matrices of the
    buffer [A[K][M][N]]. *)
Definition scatter_block (sendbuf : tensor) (count rank : Z) : tensor :=
  take (Z.to_nat count) (drop (Z.to_nat (rank * count)) sendbuf).

(** What a process does, in program order. *)
Inductive event : Type :=
  | EInit | ECommRank | ECommSize
  | EBcast (v : Z)
  | EPrintf
  | EScatter (count : Z)
  | EWtime
  | EMultiply
  | EGather (count : Z)
  | EBarrier
  | EFinalize.

Record outcome : Type :=
  mkOutcome { exit_code : Z; events : list event; localR : option tensor }.

(** [main] on process [rank] of [size], lines 24-115.  [A] and [B] are
    the arrays of rank 0 after their initialisation (lines 51-68); a
    process reads them through [MPI_Scatter] only. *)
Definition main (d : dims) (size rank : Z) (A B : tensor) : outcome :=
  let start :=
    [EInit; ECommRank; ECommSize;
     EBcast (K d); EBcast (M d); EBcast (N d); EBcast (P d)] in
  if negb (Z.rem (K d) size =? 0) then
    mkOutcome 1 (start ++ [EPrintf; EFinalize]) None
  else
    let Kl := Z.quot (K d) size in
    let localA := scatter_block A Kl rank in
    let localB := scatter_block B Kl rank in
    let R := kernel Kl (M d) (N d) (P d) localA localB in
    mkOutcome 0
      (start ++
       [EScatter (to_int (to_int (Kl * M d) * N d));
        EScatter (to_int (to_int (Kl * N d) * P d));
        EWtime; EMultiply; EWtime;
        EGather (to_int (to_int (Kl * M d) * P d));
        EBarrier; EPrintf; EFinalize])
      (Some R).

(** [MPI_Gather] at rank 0, line 97: the local results in rank order. *)
Definition gathered (d : dims) (size : Z) (A B : tensor) : option tensor :=
  blocks ← mapM (fun rank => localR (main d size rank A B)) (seqZ 0 size);
  Some (concat blocks).

(** A distribution or compute step. *)
Definition distributes_or_computes (e : event) : bool :=
  match e with
  | EScatter _ | EMultiply | EGather _ => true
  | _ => false
  end.

End Matrix.

(** ** The specification's vocabulary *)

Module Spec.

Import Phonebook.

(** ceil(T / S), by the floor division of [Z]. *)
Definition ceil_div (T S : Z) : Z := - ((- T) / S).

(** The range of rank [i] under the tolerant policy:
    [i*chunk, min((i+1)*chunk, T)) with chunk = ceil(T / S). *)
Definition planned_range (T S i : Z) : Z * Z :=
  (i * ceil_div T S, Z.min ((i + 1) * ceil_div T S) T).

(** The line-oriented text format: one "name,phone\n" line per record. *)
Definition encode_line (c : Contact) : str :=
  name c ++ [comma] ++ phone c ++ [nl].

Definition encode (contacts : list Contact) : str :=
  concat (encode_line <$> contacts).

(** [pat] occurs in [s] as a substring. *)
Definition occurs_in (pat s : str) : Prop :=
  exists pre post, s = pre ++ pat ++ post.

(** The records of the index range [r], out of [contacts]. *)
Definition records_of (contacts : list Contact) (r : Z * Z) : list Contact :=
  take (Z.to_nat (snd r - fst r)) (drop (Z.to_nat (fst r)) contacts).

(** The characters of [s] before its first NUL, all of [s] if it has none. *)
Fixpoint before_nul (s : str) : str :=
  match s with
  | [] => []
  | c :: s' => if Ascii.eqb c nul then [] else c :: before_nul s'
  end.

(** A field without a comma and without a newline. *)
Definition plain (s : str) : Prop := (comma ∉ s) /\ (nl ∉ s).

(** A record that the text format carries unchanged. *)
Definition transferable (c : Contact) : Prop :=
  (comma ∉ name c) /\ (nl ∉ name c) /\ (nul ∉ name c) /\
  (nl ∉ phone c) /\ (nul ∉ phone c).

(** The dot product of the matrix kernel in the words of the
    specification: every product reduced modulo 100, then the sum reduced
    modulo 100. *)
Definition dot_mod100 (N : Z) (A B : Matrix.tensor) (k i j : Z) : Z :=
  (foldr Z.add 0
     ((fun l => (Matrix.cell A k i l * Matrix.cell B k l j) mod 100)
        <$> seqZ 0 N)) mod 100.

(** The two messages that carry [text]. *)
Definition frame (text : str) : list message :=
  [MInt (str_size text + 1); MChars (c_str text)].

(** A line with both fields in double quotes. *)
Definition quoted_line (n p : str) : str :=
  [dquote] ++ n ++ [dquote; comma; dquote] ++ p ++ [dquote].

(** [s] without its first and its last character; empty when [s] has
    fewer than three characters. *)
Definition inner (s : str) : str := take (length s - 2) (drop 1 s).

(** The record read from a line that is [pre], a comma, [post], the comma
    being the first of the line and [post] not empty: the phone is [post]
    without its ends; the name is [pre] without its ends when [pre] has
    two characters or more, and otherwise the line after its first
    character. *)
Definition clipped (pre post : str) : Contact :=
  mkContact (if (2 <=? length pre)%nat then inner pre
             else drop 1 (pre ++ comma :: post))
            (inner post).

End Spec.

(** ** Launching the programs *)

Module Launch.

(** What a run of phonebook_mpi.cpp leaves behind: the exit code of its
    processes and the text of [output.txt] when rank 0 wrote it. *)
Record search_outcome : Type :=
  mkSearchOutcome { search_exit : Z; output_file : option str }.

(** [main] of phonebook_mpi.cpp from its command line, lines 85-162.
    [argv] is the argument vector, program name first; [fs] gives the
    contents of the files that can be opened.  [None]: the run aborted. *)
Definition search_main (size : Z) (argv : list str) (fs : str -> option str)
    : option search_outcome :=
  let argc := to_int (Z.of_nat (length argv)) in
  if argc <? 3 then Some (mkSearchOutcome 1 None)
  else
    search_term ← vec_at argv (argc - 1);
    let files := take (Z.to_nat (argc - 1 - 1)) (drop 1 argv) in
    result ← Phonebook.main size ((fun f => default [] (fs f)) <$> files)
                            search_term;
    Some (mkSearchOutcome 0 (Some result)).

(** Lines 53-59 and 61-67 of matrix_mul_mpi.c: a [D1 x D2 x D3] array
    filled in row-major order with [rand() % 100]; [rand n] is what the
    [n]-th call of [rand()] returns and [first] counts the calls made
    before. *)
Definition init_tensor (D1 D2 D3 : Z) (rand : Z -> Z) (first : Z)
    : Matrix.tensor :=
  (fun k =>
     (fun i =>
        (fun j => Z.rem (rand (first + (k * D2 + i) * D3 + j)) 100)
          <$> seqZ 0 D3) <$> seqZ 0 D2)
    <$> seqZ 0 D1.

Definition init_A (d : Matrix.dims) (rand : Z -> Z) : Matrix.tensor :=
  init_tensor (Matrix.K d) (Matrix.M d) (Matrix.N d) rand 0.

Definition init_B (d : Matrix.dims) (rand : Z -> Z) : Matrix.tensor :=
  init_tensor (Matrix.K d) (Matrix.N d) (Matrix.P d) rand
              (Matrix.K d * Matrix.M d * Matrix.N d).

(** The array [R] of rank 0 at the end of a run of matrix_mul_mpi.c. *)
Definition matrix_run (d : Matrix.dims) (size : Z) (rand : Z -> Z)
    : option Matrix.tensor :=
  Matrix.gathered d size (init_A d rand) (init_B d rand).

End Launch.

(** ** The phone book file *)

Module PhonebookFile.

Import Phonebook Spec.

(** A phone book file: one line ["name","phone"] per record. *)
Definition quoted_file (contacts : list Contact) : str :=
  concat ((fun c => quoted_line (name c) (phone c) ++ [nl]) <$> contacts).

End PhonebookFile.

(** * Proofs *)

Import Phonebook Spec.

(** ** Integer and loop facts *)

(** Side conditions "this value is an [int]". *)
Ltac int_range := unfold in_int, INT_MIN, INT_MAX in *; lia.

(** A character that does not occur in a given literal. *)
Ltac absent :=
  vm_compute; let H := fresh in
  intros H;
  repeat (let H' := fresh in
          inversion H as [|? ? ? H']; subst; clear H; rename H' into H).

Lemma to_int_id z : in_int z -> to_int z = z.
Proof.
  unfold in_int, INT_MIN, INT_MAX, to_int. intros H.
  rewrite Z.mod_small; lia.
Qed.

Lemma to_size_t_id z : 0 <= z < 2 ^ 64 -> to_size_t z = z.
Proof. intros H. unfold to_size_t. apply Z.mod_small. lia. Qed.

Lemma vec_at_lookup {A : Type} (v : list A) i c :
  0 <= i -> v !! Z.to_nat i = Some c -> vec_at v i = Some c.
Proof.
  intros Hi Hc. unfold vec_at. by destruct (Z.ltb_spec i 0); [lia|].
Qed.

(** A loop that reads [v[i]] for [i] in [lo, lo + n) folds over that slice. *)
Lemma for_loop_vec {A St : Type} (v : list A) (g : A -> St -> St) n lo s :
  0 <= lo -> lo + Z.of_nat n <= Z.of_nat (length v) ->
  for_loop n lo (fun i r => c ← vec_at v i; Some (g c r)) s
  = Some (foldl (fun r c => g c r) s (take n (drop (Z.to_nat lo) v))).
Proof.
  revert lo s. induction n as [|n IH]; intros lo s Hlo Hhi; [done|].
  cbn [for_loop].
  destruct (lookup_lt_is_Some_2 v (Z.to_nat lo)) as [c Hc]; [lia|].
  rewrite (vec_at_lookup v lo c) by done. cbn.
  rewrite IH by lia.
  rewrite (drop_S _ _ _ Hc). cbn.
  replace (Z.to_nat (lo + 1)) with (S (Z.to_nat lo)) by lia. done.
Qed.

Lemma for_loop_inv {St : Type} (I : Z -> St -> Prop) n lo body (s : St) :
  I lo s ->
  (forall i t, lo <= i < lo + Z.of_nat n -> I i t ->
     exists t', body i t = Some t' /\ I (i + 1) t') ->
  exists t, for_loop n lo body s = Some t /\ I (lo + Z.of_nat n) t.
Proof.
  revert lo s. induction n as [|n IH]; intros lo s Hs Hstep.
  - exists s. split; [done|]. by replace (lo + Z.of_nat 0) with lo by lia.
  - destruct (Hstep lo s) as (t' & Hb & Ht'); [lia|done|].
    cbn [for_loop]. rewrite Hb. cbn.
    destruct (IH (lo + 1) t') as (t & Hl & Ht); [done| |].
    + intros i u Hi. apply Hstep. lia.
    + exists t. split; [done|].
      by replace (lo + Z.of_nat (S n)) with (lo + 1 + Z.of_nat n) by lia.
Qed.

Lemma for_range_inv {St : Type} (I : Z -> St -> Prop) lo hi body (s : St) :
  lo <= hi -> I lo s ->
  (forall i t, lo <= i < hi -> I i t ->
     exists t', body i t = Some t' /\ I (i + 1) t') ->
  exists t, for_range lo hi body s = Some t /\ I hi t.
Proof.
  intros Hle Hs Hstep. unfold for_range.
  destruct (for_loop_inv I (Z.to_nat (hi - lo)) lo body s) as (t & Ht & HI);
    [done| |].
  - intros i u Hi. apply Hstep. lia.
  - exists t. split; [done|].
    by replace hi with (lo + Z.of_nat (Z.to_nat (hi - lo))) by lia.
Qed.

(** ** The tolerant planner *)

Lemma chunk_of_div T S :
  0 <= T -> 1 <= S -> T + S <= INT_MAX ->
  chunk_of T S = (T + S - 1) / S.
Proof.
  intros HT HS Hfit. unfold chunk_of. unfold INT_MAX in Hfit.
  rewrite (to_int_id (T + S)) by int_range.
  rewrite to_int_id by int_range.
  apply Z.quot_div_nonneg; lia.
Qed.

Lemma chunk_of_bounds T S :
  0 <= T -> 1 <= S -> T + S <= INT_MAX ->
  0 <= chunk_of T S /\ T <= S * chunk_of T S <= T + S - 1.
Proof.
  intros HT HS Hfit. rewrite chunk_of_div by done.
  pose proof (Z.div_mod (T + S - 1) S ltac:(lia)) as Hdm.
  pose proof (Z.mod_pos_bound (T + S - 1) S ltac:(lia)) as Hm.
  split; [apply Z.div_pos; lia | lia].
Qed.

Lemma chunk_of_ceil T S :
  0 <= T -> 1 <= S -> T + S <= INT_MAX ->
  chunk_of T S = ceil_div T S.
Proof.
  intros HT HS Hfit. rewrite chunk_of_div by done. unfold ceil_div.
  pose proof (Z.div_mod (T + S - 1) S ltac:(lia)) as Hdm.
  pose proof (Z.mod_pos_bound (T + S - 1) S ltac:(lia)) as Hm.
  pose proof (Z.div_mod (- T) S ltac:(lia)) as Hdm'.
  pose proof (Z.mod_pos_bound (- T) S ltac:(lia)) as Hm'.
  nia.
Qed.

Lemma rank_range_eq T S i :
  0 <= T -> 1 <= S -> T + S <= INT_MAX -> 0 <= i < S ->
  rank_range T S i
  = (i * chunk_of T S, Z.min ((i + 1) * chunk_of T S) T).
Proof.
  intros HT HS Hfit Hi.
  destruct (chunk_of_bounds T S) as [Hc0 Hc]; [done..|].
  unfold rank_range. unfold INT_MAX in Hfit.
  destruct (Z.eqb_spec i 0) as [->|Hne].
  - f_equal. lia.
  - rewrite (to_int_id (i + 1)) by int_range.
    rewrite !to_int_id by (unfold in_int, INT_MIN, INT_MAX; nia).
    f_equal. lia.
Qed.

Lemma tiles_prefix c T (n : nat) :
  0 <= c -> 0 <= T ->
  concat ((fun i => seqZ (i * c) (Z.min ((i + 1) * c) T - i * c))
            <$> seqZ 0 (Z.of_nat n))
  = seqZ 0 (Z.min (Z.of_nat n * c) T).
Proof.
  intros Hc HT. induction n as [|n IH].
  { by rewrite (seqZ_nil 0 (Z.min _ _)) by lia. }
  rewrite seqZ_S, fmap_app, concat_app, IH. cbn [fmap list_fmap concat].
  rewrite app_nil_r, Z.add_0_l.
  destruct (Z.le_gt_cases (Z.of_nat n * c) T) as [Hle|Hgt].
  - rewrite (Z.min_l (Z.of_nat n * c)) by done.
    replace (Z.min (Z.of_nat (S n) * c) T)
      with (Z.of_nat n * c + (Z.min ((Z.of_nat n + 1) * c) T - Z.of_nat n * c))
      by lia.
    rewrite seqZ_app by lia. done.
  - rewrite (seqZ_nil (Z.of_nat n * c)) by lia.
    rewrite app_nil_r. f_equal. lia.
Qed.

Lemma ceil_div_bounds T S :
  0 <= T -> 1 <= S -> 0 <= ceil_div T S /\ T <= S * ceil_div T S.
Proof.
  intros HT HS. unfold ceil_div.
  pose proof (Z.div_mod (- T) S ltac:(lia)) as Hdm.
  pose proof (Z.mod_pos_bound (- T) S ltac:(lia)) as Hm.
  split; nia.
Qed.

Lemma planned_ranges_tile T S :
  0 <= T -> 1 <= S ->
  concat (indices <$> (planned_range T S <$> seqZ 0 S)) = seqZ 0 T.
Proof.
  intros HT HS. destruct (ceil_div_bounds T S) as [Hc0 Hc]; [done..|].
  rewrite <- list_fmap_compose. unfold compose, indices, planned_range.
  cbn [fst snd].
  replace S with (Z.of_nat (Z.to_nat S)) at 1 by lia.
  rewrite tiles_prefix by done. f_equal. lia.
Qed.

(** C1.  Tolerant partitioning.  For every total count [T >= 0] and
    participant count [S >= 1], the S ranges
    [i*chunk, min((i+1)*chunk, T)) with chunk = ceil(T/S), concatenated in
    rank order, are exactly the indices 0, 1, ..., T-1: no gap, no
    overlap, every index once; a range that starts past T is empty.  The
    program computes these ranges (lines 110, 114 with 42, and 121)
    whenever [T + S] is representable in the [int] arithmetic of
    line 110, so the ranges it visits tile [0, T) as well. *)
Theorem tolerant_ranges_tile (T S : Z) :
  0 <= T -> 1 <= S ->
  concat (indices <$> (planned_range T S <$> seqZ 0 S)) = seqZ 0 T /\
  (T + S <= INT_MAX ->
   chunk_of T S = ceil_div T S /\
   (forall i, 0 <= i < S -> rank_range T S i = planned_range T S i) /\
   concat (indices <$> (rank_range T S <$> seqZ 0 S)) = seqZ 0 T).
Proof.
  intros HT HS. split; [by apply planned_ranges_tile|]. intros Hfit.
  assert (forall i, 0 <= i < S -> rank_range T S i = planned_range T S i) as Hr.
  { intros i Hi. unfold planned_range. rewrite <- chunk_of_ceil by done.
    by apply rank_range_eq. }
  split; [by apply chunk_of_ceil|]. split; [done|].
  rewrite <- (planned_ranges_tile T S) by done. do 2 f_equal.
  apply list_fmap_ext. intros k i Hk.
  apply list_elem_of_lookup_2, elem_of_seqZ in Hk. apply Hr. lia.
Qed.

Lemma tolerant_ranges_tile_witness :
  concat (indices <$> (planned_range 5 4 <$> seqZ 0 4)) = seqZ 0 5 /\
  chunk_of 5 4 = ceil_div 5 4 /\
  concat (indices <$> (rank_range 5 4 <$> seqZ 0 4)) = seqZ 0 5.
Proof.
  destruct (tolerant_ranges_tile 5 4) as [Hplan Hcode]; [lia..|].
  destruct Hcode as (Hchunk & _ & Htile); [unfold INT_MAX; lia|].
  exact (conj Hplan (conj Hchunk Htile)).
Defined.

Lemma block_length_eq T S i :
  0 <= T -> 1 <= S -> T + S <= INT_MAX -> 0 <= i < S ->
  block_length (rank_range T S i)
  = Z.max 0 (Z.min (ceil_div T S) (T - i * ceil_div T S)).
Proof.
  intros HT HS Hfit Hi.
  rewrite rank_range_eq, <- chunk_of_ceil by done.
  unfold block_length, indices. cbn [fst snd]. rewrite length_seqZ. lia.
Qed.

(** C2, as the specification words it, fails for 5 records on 4 ranks:
    the chunk is 2, rank 2 holds one record and the last rank none, while
    the formula T - (S-1)*ceil(T/S) gives -1. *)
Lemma last_block_formula_fails :
  block_length (rank_range 5 4 3) <> 5 - (4 - 1) * ceil_div 5 4 /\
  block_length (rank_range 5 4 2) <> ceil_div 5 4.
Proof. split; vm_compute; discriminate. Qed.

(** C2, amended.  Under tolerant partitioning rank [i] holds
    max(0, min(chunk, T - i*chunk)) records with chunk = ceil(T/S), so no
    block is longer than the chunk and the last rank holds
    max(0, T - (S-1)*chunk).  When (S-1)*chunk <= T, the ranks 0..S-2 hold
    exactly one chunk each and the last rank holds T - (S-1)*chunk. *)
Theorem tolerant_block_lengths (T S : Z) :
  0 <= T -> 1 <= S -> T + S <= INT_MAX ->
  block_length (rank_range T S (S - 1))
  = Z.max 0 (T - (S - 1) * ceil_div T S) /\
  (forall i, 0 <= i < S ->
     block_length (rank_range T S i)
     = Z.max 0 (Z.min (ceil_div T S) (T - i * ceil_div T S)) /\
     block_length (rank_range T S i) <= ceil_div T S) /\
  ((S - 1) * ceil_div T S <= T ->
     (forall i, 0 <= i < S - 1 ->
        block_length (rank_range T S i) = ceil_div T S) /\
     block_length (rank_range T S (S - 1)) = T - (S - 1) * ceil_div T S).
Proof.
  intros HT HS Hfit.
  destruct (chunk_of_bounds T S) as [Hc0 Hc]; [done..|].
  rewrite chunk_of_ceil in Hc0, Hc by done.
  assert (T - (S - 1) * ceil_div T S <= ceil_div T S) as Hlast by lia.
  repeat split.
  - rewrite block_length_eq by (done || lia). lia.
  - by apply block_length_eq.
  - rewrite block_length_eq by (done || lia). lia.
  - intros i Hi. rewrite block_length_eq by (done || lia).
    assert (i * ceil_div T S <= (S - 2) * ceil_div T S) by nia. lia.
  - rewrite block_length_eq by (done || lia). lia.
Qed.

Lemma tolerant_block_lengths_witness :
  block_length (rank_range 10 4 (4 - 1)) = Z.max 0 (10 - (4 - 1) * ceil_div 10 4) /\
  (forall i, 0 <= i < 4 - 1 -> block_length (rank_range 10 4 i) = ceil_div 10 4) /\
  block_length (rank_range 10 4 (4 - 1)) = 10 - (4 - 1) * ceil_div 10 4.
Proof.
  destruct (tolerant_block_lengths 10 4) as (Hlast & _ & Hfull);
    [lia | lia | unfold INT_MAX; lia |].
  destruct Hfull as [Hchunks Hexact]; [vm_compute; discriminate|].
  exact (conj Hlast (conj Hchunks Hexact)).
Defined.

(** ** The strict policy of the matrix program *)

(** C3.  Strict partitioning: when the number of matrices is not a
    multiple of the number of processes, every process returns 1 without
    a local result, no scatter, multiplication or gather is among the
    steps it took, and rank 0 assembles no result. *)
Theorem strict_rejects_before_distribution
    (d : Matrix.dims) (size rank : Z) (A B : Matrix.tensor) :
  1 <= size -> Z.rem (Matrix.K d) size <> 0 ->
  Matrix.exit_code (Matrix.main d size rank A B) = 1 /\
  Matrix.localR (Matrix.main d size rank A B) = None /\
  Forall (fun e => Matrix.distributes_or_computes e = false)
         (Matrix.events (Matrix.main d size rank A B)) /\
  Matrix.gathered d size A B = None.
Proof.
  intros Hsize Hrem. unfold Matrix.gathered, Matrix.main.
  destruct (Z.eqb_spec (Z.rem (Matrix.K d) size) 0) as [?|_]; [done|].
  cbn [negb Matrix.exit_code Matrix.localR Matrix.events].
  repeat split; [repeat constructor|].
  rewrite seqZ_cons by lia. done.
Qed.

Lemma strict_rejects_before_distribution_witness :
  Matrix.exit_code (Matrix.main Matrix.program_dims 3 1 [] []) = 1.
Proof.
  apply (strict_rejects_before_distribution Matrix.program_dims 3 1 [] []).
  - lia.
  - vm_compute. discriminate.
Defined.

(** ** The matrix kernel *)

Lemma vec_at_fmap_seqZ {A : Type} (f : Z -> A) n k :
  0 <= k < n -> vec_at (f <$> seqZ 0 n) k = Some (f k).
Proof.
  intros Hk. unfold vec_at.
  destruct (Z.ltb_spec k 0); [lia|].
  rewrite list_lookup_fmap, lookup_seqZ_lt by lia. cbn. f_equal. f_equal. lia.
Qed.

Lemma cell_kernel Kl M N P A B k i j :
  0 <= k < Kl -> 0 <= i < M -> 0 <= j < P ->
  Matrix.cell (Matrix.kernel Kl M N P A B) k i j = Matrix.dot_cell N A B k i j.
Proof.
  intros Hk Hi Hj. unfold Matrix.cell, Matrix.kernel.
  rewrite vec_at_fmap_seqZ by done. cbn.
  rewrite vec_at_fmap_seqZ by done. cbn.
  by rewrite vec_at_fmap_seqZ by done.
Qed.

(** The accumulation loop of lines 85-87 computes the plain sum of the
    reduced products as long as 99 per term fits an [int]. *)
Lemma dot_loop (f : Z -> Z) n lo r :
  0 <= lo -> 0 <= r <= 99 * lo -> 99 * (lo + Z.of_nat n) <= INT_MAX ->
  (forall l, lo <= l < lo + Z.of_nat n -> 0 <= f l <= 99 * 99) ->
  pure_loop n lo (fun l r => to_int (r + Z.rem (to_int (f l)) 100)) r
  = r + foldr Z.add 0 ((fun l => f l mod 100) <$> seqZ lo (Z.of_nat n)) /\
  0 <= r + foldr Z.add 0 ((fun l => f l mod 100) <$> seqZ lo (Z.of_nat n))
    <= 99 * (lo + Z.of_nat n).
Proof.
  revert lo r. induction n as [|n IH]; intros lo r Hlo Hr Hfit Hf.
  - rewrite seqZ_nil by lia. cbn. lia.
  - cbn [pure_loop]. rewrite seqZ_cons by lia. cbn [fmap list_fmap foldr].
    replace (Z.pred (Z.of_nat (S n))) with (Z.of_nat n) by lia.
    replace (Z.succ lo) with (lo + 1) by lia.
    pose proof (Hf lo ltac:(lia)) as Hflo.
    pose proof (Z.mod_pos_bound (f lo) 100 ltac:(lia)) as Hm.
    unfold INT_MAX in Hfit.
    rewrite (to_int_id (f lo)) by int_range.
    rewrite Z.rem_mod_nonneg by lia.
    rewrite to_int_id by int_range.
    destruct (IH (lo + 1) (r + f lo mod 100)) as [Heq Hb].
    + lia.
    + lia.
    + unfold INT_MAX. lia.
    + intros l Hl. apply Hf. lia.
    + rewrite Heq. split; [fold (list_fmap Z Z (fun l => f l mod 100)) | ]; lia.
Qed.

Lemma dot_cell_spec N A B k i j :
  99 * N <= INT_MAX ->
  (forall l, 0 <= l < N ->
     0 <= Matrix.cell A k i l <= 99 /\ 0 <= Matrix.cell B k l j <= 99) ->
  Matrix.dot_cell N A B k i j = dot_mod100 N A B k i j /\
  0 <= Matrix.dot_cell N A B k i j <= 99.
Proof.
  intros Hfit Hin. unfold Matrix.dot_cell, dot_mod100, pure_range.
  destruct (Z.le_gt_cases 0 N) as [HN|HN].
  - destruct (dot_loop
                (fun l => Matrix.cell A k i l * Matrix.cell B k l j)
                (Z.to_nat (N - 0)) 0 0) as [Heq Hb].
    + lia.
    + lia.
    + lia.
    + intros l Hl. destruct (Hin l) as [Ha Hb]; [lia|]. nia.
    + rewrite Heq. replace (Z.of_nat (Z.to_nat (N - 0))) with N in * by lia.
      rewrite Z.add_0_l in *. rewrite Z.rem_mod_nonneg by lia.
      split; [done|].
      pose proof (Z.mod_pos_bound
        (foldr Z.add 0
           ((fun l => (Matrix.cell A k i l * Matrix.cell B k l j) mod 100)
              <$> seqZ 0 N)) 100 ltac:(lia)). lia.
  - replace (Z.to_nat (N - 0)) with 0%nat by lia.
    rewrite seqZ_nil by lia. cbn.
    change (Z.rem 0 100) with 0. change (0 mod 100) with 0. lia.
Qed.

(** C7.  Matrix kernel: with the elements that enter an element of the
    local result in [0, 99] (and 99*N representable in [int]), the element
    is the sum over the shared dimension of the products reduced modulo
    100, itself reduced modulo 100, and lies in [0, 99]; for the 1x1x1x1
    shape with A = 7 and B = 13 the result is 91. *)
Theorem matrix_kernel_mod100 :
  (forall (Kl M N P : Z) (A B : Matrix.tensor) (k i j : Z),
     0 <= k < Kl -> 0 <= i < M -> 0 <= j < P ->
     99 * N <= INT_MAX ->
     (forall l, 0 <= l < N ->
        0 <= Matrix.cell A k i l <= 99 /\ 0 <= Matrix.cell B k l j <= 99) ->
     Matrix.cell (Matrix.kernel Kl M N P A B) k i j = dot_mod100 N A B k i j /\
     0 <= Matrix.cell (Matrix.kernel Kl M N P A B) k i j <= 99) /\
  Matrix.kernel 1 1 1 1 [[[7]]] [[[13]]] = [[[(7 * 13) mod 100 mod 100]]] /\
  (7 * 13) mod 100 mod 100 = 91.
Proof.
  split; [|split; reflexivity].
  intros Kl M N P A B k i j Hk Hi Hj Hfit Hin.
  rewrite cell_kernel by done. by apply dot_cell_spec.
Qed.

Lemma matrix_kernel_mod100_witness :
  Matrix.cell (Matrix.kernel 1 1 2 1 [[[7; 50]]] [[[13]; [99]]]) 0 0 0
  = dot_mod100 2 [[[7; 50]]] [[[13]; [99]]] 0 0 0 /\
  0 <= Matrix.cell (Matrix.kernel 1 1 2 1 [[[7; 50]]] [[[13]; [99]]]) 0 0 0 <= 99.
Proof.
  apply (proj1 matrix_kernel_mod100 1 1 2 1 [[[7; 50]]] [[[13]; [99]]] 0 0 0);
    try (unfold INT_MAX; lia).
  intros l Hl.
  assert (l = 0 \/ l = 1) as [-> | ->] by lia; vm_compute; repeat split; discriminate.
Defined.

(** ** The search kernel *)

Lemma starts_with_spec pat s :
  starts_with pat s = true <-> exists post, s = pat ++ post.
Proof.
  revert s. induction pat as [|a pat IH]; intros s; cbn.
  - split; [eauto|done].
  - destruct s as [|b s].
    + split; [done|]. intros [post Hpost]. discriminate.
    + destruct (Ascii.eqb_spec a b) as [->|Hne].
      * rewrite IH. split; intros [post Hpost]; exists post.
        -- by rewrite Hpost.
        -- by injection Hpost.
      * split; [done|]. intros [post Hpost]. by injection Hpost.
Qed.

Lemma occurs_in_cons pat a s :
  occurs_in pat (a :: s) <-> starts_with pat (a :: s) = true \/ occurs_in pat s.
Proof.
  rewrite starts_with_spec. split.
  - intros ([|b pre] & post & Heq).
    + left. by exists post.
    + right. exists pre, post. by injection Heq.
  - intros [[post Heq] | (pre & post & Heq)].
    + by exists [], post.
    + exists (a :: pre), post. by rewrite Heq.
Qed.

Lemma find_from_occurs pat s i :
  is_Some (find_from pat s i) <-> occurs_in pat s.
Proof.
  revert i. induction s as [|a s IH]; intros i; cbn [find_from].
  - destruct (starts_with pat []) eqn:Hsw.
    + split; [|eauto]. intros _. apply starts_with_spec in Hsw as [post Hpost].
      by exists [], post.
    + split; [by intros [? ?]|]. intros (pre & post & Heq).
      symmetry in Heq. apply app_eq_nil in Heq as [_ Heq].
      apply app_eq_nil in Heq as [-> _]. cbn in Hsw. done.
  - rewrite occurs_in_cons. destruct (starts_with pat (a :: s)) eqn:Hsw.
    + split; eauto.
    + rewrite IH. split; [eauto|]. by intros [?|?].
Qed.

(** C8.  Search kernel: [check] yields the line "<name> <phone>\n" when
    the query occurs somewhere in the name, compared character by
    character, and the empty string when it does not; ("Bob Marley",
    "555-1212") gives "Bob Marley 555-1212\n" for "Bob" and "" for "Zed",
    the line again for "Marley" (no anchoring) and "" for "bob" (no case
    folding). *)
Theorem check_emits_iff_substring :
  (forall (c : Contact) (search : str),
     (occurs_in search (name c) ->
        check c search = name c ++ [space] ++ phone c ++ [nl]) /\
     (~ occurs_in search (name c) -> check c search = [])) /\
  check (mkContact "Bob Marley"%string "555-1212"%string) "Bob"%string
  = "Bob Marley 555-1212"%string ++ [nl] /\
  check (mkContact "Bob Marley"%string "555-1212"%string) "Zed"%string = [] /\
  check (mkContact "Bob Marley"%string "555-1212"%string) "Marley"%string
  = "Bob Marley 555-1212"%string ++ [nl] /\
  check (mkContact "Bob Marley"%string "555-1212"%string) "bob"%string = [].
Proof.
  split; [|repeat split; reflexivity].
  intros c search. unfold check.
  pose proof (find_from_occurs search (name c) 0) as Hfind.
  fold (find (name c) search) in Hfind.
  destruct (find (name c) search) as [p|].
  - split; [done|]. intros Hno. destruct Hno. apply Hfind. eauto.
  - split; [|done]. intros Hocc. apply Hfind in Hocc. by destruct Hocc.
Qed.

Lemma check_emits_iff_substring_witness :
  check (mkContact "Ann Lee"%string "1"%string) "n L"%string
  = "Ann Lee"%string ++ [space] ++ "1"%string ++ [nl].
Proof.
  apply (proj1 check_emits_iff_substring
           (mkContact "Ann Lee"%string "1"%string) "n L"%string).
  by exists (of_string "An"), (of_string "ee").
Defined.

(** ** The framed transfer *)

Lemma in_flight_send m src dst net s d :
  in_flight (MPI_Send m src dst net) s d
  = if decide ((s, d) = (src, dst)) then in_flight net src dst ++ [m]
    else in_flight net s d.
Proof.
  unfold MPI_Send, in_flight at 1.
  rewrite lookup_insert. destruct (decide ((src, dst) = (s, d))) as [Heq|Hne].
  - destruct (decide ((s, d) = (src, dst))) as [_|Hne]; [done|]. by destruct Hne.
  - destruct (decide ((s, d) = (src, dst))) as [Heq|_]; [by destruct Hne|done].
Qed.

Lemma MPI_Recv_cons m q src dst net :
  in_flight net src dst = m :: q ->
  exists net', MPI_Recv src dst net = Some (m, net') /\
    forall s d, in_flight net' s d
                = if decide ((s, d) = (src, dst)) then q else in_flight net s d.
Proof.
  intros Hq. unfold MPI_Recv. rewrite Hq. eexists. split; [done|].
  intros s d. unfold in_flight at 1. rewrite lookup_insert.
  destruct (decide ((src, dst) = (s, d))) as [Heq|Hne].
  - destruct (decide ((s, d) = (src, dst))) as [_|Hne]; [done|]. by destruct Hne.
  - destruct (decide ((s, d) = (src, dst))) as [Heq|_]; [by destruct Hne|done].
Qed.

Lemma from_c_str_before_nul text :
  from_c_str (c_str text) = Some (before_nul text).
Proof.
  unfold c_str. induction text as [|c text IH]; [done|].
  cbn. destruct (Ascii.eqb c nul); [done|]. by rewrite IH.
Qed.

Lemma before_nul_no_nul text : nul ∉ text -> before_nul text = text.
Proof.
  induction text as [|c text IH]; [done|]. intros Hno.
  apply not_elem_of_cons in Hno as [Hc Hno]. cbn.
  destruct (Ascii.eqb_spec c nul) as [->|_]; [done|]. by rewrite IH.
Qed.

Lemma before_nul_app pre post :
  nul ∉ pre -> before_nul (pre ++ nul :: post) = pre.
Proof.
  induction pre as [|c pre IH]; [done|]. intros Hno.
  apply not_elem_of_cons in Hno as [Hc Hno]. cbn.
  destruct (Ascii.eqb_spec c nul) as [->|_]; [done|]. by rewrite IH.
Qed.

Lemma send_string_spec text me receiver net :
  str_size text + 1 <= INT_MAX ->
  exists net', send_string text me receiver net = Some net' /\
    forall s d, in_flight net' s d
                = if decide ((s, d) = (me, receiver))
                  then in_flight net me receiver ++ frame text
                  else in_flight net s d.
Proof.
  intros Hfit. unfold send_string, str_size in *. unfold INT_MAX in Hfit.
  rewrite to_int_id by int_range.
  destruct (Z.ltb_spec (Z.of_nat (length text) + 1) 0); [lia|].
  eexists. split; [done|]. intros s d.
  rewrite firstn_all2 by (unfold c_str; rewrite length_app; cbn; lia).
  rewrite in_flight_send.
  destruct (decide ((s, d) = (me, receiver))) as [Heq|Hne].
  - rewrite in_flight_send, decide_True by done. by rewrite <- app_assoc.
  - by rewrite in_flight_send, decide_False by done.
Qed.

Lemma receive_string_spec text q sender me net :
  str_size text + 1 <= INT_MAX ->
  in_flight net sender me = frame text ++ q ->
  exists net', receive_string sender me net = Some (before_nul text, net') /\
    forall s d, in_flight net' s d
                = if decide ((s, d) = (sender, me)) then q
                  else in_flight net s d.
Proof.
  intros Hfit Hq. unfold receive_string, frame in *. cbn in Hq.
  destruct (MPI_Recv_cons _ _ _ _ _ Hq) as (net1 & -> & H1). cbn.
  unfold str_size in *.
  destruct (Z.ltb_spec (Z.of_nat (length text) + 1) 0); [lia|].
  pose proof (H1 sender me) as Hq1. rewrite decide_True in Hq1 by done.
  destruct (MPI_Recv_cons _ _ _ _ _ Hq1) as (net2 & -> & H2). cbn.
  destruct (Z.ltb_spec (Z.of_nat (length text) + 1)
              (Z.of_nat (length (c_str text)))) as [Hlt|_].
  { unfold c_str in Hlt. rewrite length_app in Hlt. cbn in Hlt. lia. }
  rewrite from_c_str_before_nul. cbn. eexists. split; [done|].
  intros s d. rewrite H2. destruct (decide ((s, d) = (sender, me))); [done|].
  rewrite H1. by rewrite decide_False by done.
Qed.

(** C10.  Framed string transfer: on a channel with nothing in flight, a
    [send_string] of a text of at most INT_MAX - 1 characters followed by
    the matching [receive_string] succeeds; the receiver gets the text
    itself when it holds no NUL, and otherwise the part of the text that
    comes before its first NUL. *)
Theorem framed_transfer_round_trip (text : str) (me receiver : Z) (net : network) :
  str_size text + 1 <= INT_MAX ->
  in_flight net me receiver = [] ->
  exists net' received net'',
    send_string text me receiver net = Some net' /\
    receive_string me receiver net' = Some (received, net'') /\
    in_flight net'' me receiver = [] /\
    (nul ∉ text -> received = text) /\
    (forall pre post, text = pre ++ nul :: post -> nul ∉ pre -> received = pre).
Proof.
  intros Hfit Hempty.
  destruct (send_string_spec text me receiver net Hfit) as (net' & Hsend & Hnet').
  pose proof (Hnet' me receiver) as Hq.
  rewrite decide_True, Hempty in Hq by done. cbn [app] in Hq.
  rewrite <- (app_nil_r (frame text)) in Hq.
  destruct (receive_string_spec text [] me receiver net' Hfit Hq)
    as (net'' & Hrecv & Hnet'').
  exists net', (before_nul text), net''. repeat split; try done.
  - by rewrite Hnet'', decide_True by done.
  - apply before_nul_no_nul.
  - intros pre post -> Hpre. by apply before_nul_app.
Qed.

Lemma framed_transfer_round_trip_witness :
  exists net' received net'',
    send_string ("ab"%string ++ [nul] ++ "cd"%string) 1 0 ∅ = Some net' /\
    receive_string 1 0 net' = Some (received, net'') /\
    in_flight net'' 1 0 = [] /\
    (nul ∉ (of_string "ab" ++ [nul] ++ of_string "cd") -> received = "ab"%string ++ [nul] ++ "cd"%string) /\
    (forall pre post, of_string "ab" ++ [nul] ++ of_string "cd" = pre ++ nul :: post ->
                      nul ∉ pre -> received = pre).
Proof.
  apply (framed_transfer_round_trip ("ab"%string ++ [nul] ++ "cd"%string) 1 0 ∅).
  - vm_compute. discriminate.
  - reflexivity.
Defined.

(** ** The text format of the records *)

Lemma foldl_app_concat {A B : Type} (f : A -> list B) (l : list A) (s : list B) :
  foldl (fun r c => r ++ f c) s l = s ++ concat (f <$> l).
Proof.
  revert s. induction l as [|c l IH]; intros s; cbn.
  - by rewrite app_nil_r.
  - by rewrite IH, app_assoc.
Qed.

Lemma vector_to_string_spec cs lo hi :
  0 <= lo -> Z.of_nat (length cs) <= INT_MAX ->
  vector_to_string cs lo hi
  = Some (encode (records_of cs (lo, Z.min (Z.of_nat (length cs)) hi))).
Proof.
  intros Hlo Hfit. unfold vector_to_string, for_range, records_of, encode.
  cbn [fst snd]. unfold INT_MAX in Hfit.
  rewrite to_int_id by int_range.
  destruct (Z.le_gt_cases (Z.min (Z.of_nat (length cs)) hi) lo) as [Hle|Hgt].
  - by replace (Z.to_nat (Z.min (Z.of_nat (length cs)) hi - lo)) with 0%nat by lia.
  - rewrite (for_loop_vec cs (fun c r => r ++ encode_line c)) by lia.
    by rewrite foldl_app_concat.
Qed.

Lemma getlines_from_line cur l rest :
  nl ∉ l -> getlines_from cur (l ++ nl :: rest) = (cur ++ l) :: getlines_from [] rest.
Proof.
  revert cur. induction l as [|c l IH]; intros cur Hno; cbn.
  - by rewrite app_nil_r.
  - apply not_elem_of_cons in Hno as [Hc Hno].
    destruct (Ascii.eqb_spec c nl) as [->|_]; [done|].
    rewrite IH by done. by rewrite <- app_assoc.
Qed.

Lemma getlines_encode cs :
  (forall c, c ∈ cs -> (nl ∉ name c) /\ (nl ∉ phone c)) ->
  getlines (encode cs) = (fun c => name c ++ [comma] ++ phone c) <$> cs.
Proof.
  unfold getlines, encode. induction cs as [|c cs IH]; intros Hcs; [done|].
  cbn [fmap list_fmap concat]. unfold encode_line at 1.
  destruct (Hcs c) as [Hn Hp]; [left|].
  replace ((name c ++ [comma] ++ phone c ++ [nl]) ++ concat (encode_line <$> cs))
    with ((name c ++ [comma] ++ phone c) ++ nl :: concat (encode_line <$> cs))
    by (by rewrite <- !app_assoc).
  rewrite getlines_from_line.
  - rewrite IH; [done|]. intros c' Hc'. apply Hcs. by right.
  - rewrite !not_elem_of_app. repeat split; [done| |done].
    rewrite not_elem_of_cons. split; [discriminate|apply not_elem_of_nil].
Qed.

Lemma find_from_char c pre post i :
  c ∉ pre -> find_from [c] (pre ++ c :: post) i = Some (i + Z.of_nat (length pre)).
Proof.
  revert i. induction pre as [|a pre IH]; intros i Hno; cbn.
  - rewrite Ascii.eqb_refl. f_equal. lia.
  - apply not_elem_of_cons in Hno as [Hc Hno].
    destruct (Ascii.eqb_spec c a) as [->|_]; [done|].
    rewrite IH by done. f_equal. lia.
Qed.

Lemma find_from_char_none c s i : c ∉ s -> find_from [c] s i = None.
Proof.
  revert i. induction s as [|a s IH]; intros i Hno; [done|]. cbn.
  apply not_elem_of_cons in Hno as [Hc Hno].
  destruct (Ascii.eqb_spec c a) as [->|_]; [done|]. by apply IH.
Qed.

Lemma substr_mid (a b c : str) pos n :
  pos = Z.of_nat (length a) -> n = Z.of_nat (length b) ->
  substr (a ++ b ++ c) pos n = Some b.
Proof.
  intros -> ->. unfold substr, str_size. rewrite !length_app.
  destruct (Z.ltb_spec
    (Z.of_nat (length a + (length b + length c))) (Z.of_nat (length a))); [lia|].
  f_equal. rewrite Nat2Z.id, drop_app_length.
  replace (Z.to_nat _) with (length b) by lia.
  by rewrite take_app_length.
Qed.

Lemma substr_tail (a b : str) pos n :
  pos = Z.of_nat (length a) -> Z.of_nat (length b) <= n ->
  substr (a ++ b) pos n = Some b.
Proof.
  intros -> Hn. unfold substr, str_size. rewrite !length_app.
  destruct (Z.ltb_spec
    (Z.of_nat (length a + length b)) (Z.of_nat (length a))); [lia|].
  f_equal. rewrite Nat2Z.id, drop_app_length.
  apply firstn_all2. lia.
Qed.

(** One line "name,phone" of at most INT_MAX - 1 characters is parsed
    back into its two fields. *)
Lemma parse_line_fields n p acc :
  comma ∉ n -> Z.of_nat (length (n ++ [comma] ++ p)) + 1 <= INT_MAX ->
  parse_line (n ++ [comma] ++ p) acc = Some (acc ++ [mkContact n p]).
Proof.
  intros Hno Hfit. unfold parse_line. rewrite !length_app in Hfit. cbn in Hfit.
  unfold INT_MAX in Hfit.
  replace (str_empty (n ++ [comma] ++ p)) with false by (by destruct n).
  unfold find. cbn [app]. rewrite find_from_char by done.
  change (pos_or_npos (Some ?x)) with x. rewrite Z.add_0_l.
  rewrite (to_int_id (Z.of_nat (length n)))
    by int_range.
  rewrite to_int_id by int_range.
  rewrite !to_size_t_id by lia.
  destruct (Z.eqb_spec (Z.of_nat (length n)) npos) as [Heq|_].
  { unfold npos in Heq. lia. }
  assert (substr (n ++ comma :: p) 0 (Z.of_nat (length n)) = Some n) as ->.
  { apply (substr_mid [] n (comma :: p)); reflexivity. }
  assert (substr (n ++ comma :: p) (Z.of_nat (length n) + 1) npos = Some p) as ->.
  { replace (n ++ comma :: p) with ((n ++ [comma]) ++ p)
      by (by rewrite <- app_assoc).
    apply substr_tail; [rewrite length_app; cbn; lia | unfold npos; lia]. }
  done.
Qed.

Lemma length_encode_line c :
  length (encode_line c) = (length (name c) + length (phone c) + 2)%nat.
Proof. unfold encode_line. rewrite !length_app. cbn. lia. Qed.

Lemma length_encode_cons c cs :
  length (encode (c :: cs)) = (length (encode_line c) + length (encode cs))%nat.
Proof. unfold encode. cbn. by rewrite length_app. Qed.

Lemma length_le_encode cs : (length cs <= length (encode cs))%nat.
Proof.
  induction cs as [|c cs IH]; [done|].
  rewrite length_encode_cons, length_encode_line. cbn. lia.
Qed.

Lemma parse_lines cs acc :
  (forall c, c ∈ cs -> comma ∉ name c) ->
  str_size (encode cs) <= INT_MAX ->
  for_each ((fun c => name c ++ [comma] ++ phone c) <$> cs) parse_line acc
  = Some (acc ++ cs).
Proof.
  unfold str_size. revert acc.
  induction cs as [|c cs IH]; intros acc Hcs Hfit;
    cbn [for_each fmap list_fmap].
  - by rewrite app_nil_r.
  - rewrite length_encode_cons, length_encode_line in Hfit.
    rewrite parse_line_fields.
    + cbn [mbind option_bind]. rewrite IH.
      * destruct c. by rewrite <- app_assoc.
      * intros c' Hc'. apply Hcs. by right.
      * lia.
    + apply Hcs. left.
    + rewrite !length_app. cbn. lia.
Qed.

Lemma string_to_contacts_encode cs :
  (forall c, c ∈ cs -> (comma ∉ name c) /\ (nl ∉ name c) /\ (nl ∉ phone c)) ->
  str_size (encode cs) <= INT_MAX ->
  string_to_contacts (encode cs) = Some cs.
Proof.
  intros Hcs Hfit. unfold string_to_contacts.
  rewrite getlines_encode by (intros c Hc; by destruct (Hcs c Hc) as (? & ? & ?)).
  apply (parse_lines cs []); [|done].
  intros c Hc. by destruct (Hcs c Hc) as (? & ? & ?).
Qed.

Lemma vector_to_string_all cs :
  Z.of_nat (length cs) <= INT_MAX ->
  vector_to_string cs 0 (Z.of_nat (length cs)) = Some (encode cs).
Proof.
  intros Hfit. rewrite vector_to_string_spec; [|lia|done].
  unfold records_of. cbn [fst snd]. rewrite Z.min_id, Z.sub_0_r, Nat2Z.id.
  change (Z.to_nat 0) with 0%nat. by rewrite drop_0, firstn_all.
Qed.

(** C5.  Round trip: a list of records whose fields hold neither a comma
    nor a newline (and whose text is at most INT_MAX characters long) is
    encoded as one "name,phone\n" line per record, and decoding that text
    gives the list back; [("Ann","123"), ("Bob","456")] becomes
    "Ann,123\nBob,456\n" and comes back unchanged. *)
Theorem text_format_round_trip :
  (forall cs : list Contact,
     (forall c, c ∈ cs -> plain (name c) /\ plain (phone c)) ->
     str_size (encode cs) <= INT_MAX ->
     vector_to_string cs 0 (Z.of_nat (length cs)) = Some (encode cs) /\
     string_to_contacts (encode cs) = Some cs) /\
  vector_to_string
    [mkContact "Ann"%string "123"%string; mkContact "Bob"%string "456"%string] 0 2
  = Some ("Ann,123"%string ++ [nl] ++ "Bob,456"%string ++ [nl]) /\
  string_to_contacts ("Ann,123"%string ++ [nl] ++ "Bob,456"%string ++ [nl])
  = Some [mkContact "Ann"%string "123"%string; mkContact "Bob"%string "456"%string].
Proof.
  split; [|split; reflexivity].
  intros cs Hcs Hfit. split.
  - apply vector_to_string_all. pose proof (length_le_encode cs).
    unfold str_size in Hfit. lia.
  - apply string_to_contacts_encode; [|done].
    intros c Hc. destruct (Hcs c Hc) as [[? ?] [? ?]]. done.
Qed.

Lemma text_format_round_trip_witness :
  vector_to_string [mkContact "Cy"%string "7"%string] 0 (Z.of_nat 1)
  = Some (encode [mkContact "Cy"%string "7"%string]) /\
  string_to_contacts (encode [mkContact "Cy"%string "7"%string])
  = Some [mkContact "Cy"%string "7"%string].
Proof.
  apply (proj1 text_format_round_trip [mkContact "Cy"%string "7"%string]).
  - intros c Hc. apply list_elem_of_singleton in Hc as ->.
    repeat split; absent.
  - vm_compute. discriminate.
Defined.

(** ** Reading the phone book *)

Lemma read_line_no_comma line cs : comma ∉ line -> read_line line cs = Some cs.
Proof.
  intros Hno. unfold read_line, find.
  destruct (str_empty line); [done|].
  by rewrite find_from_char_none by done.
Qed.

Lemma read_line_quoted n p cs :
  comma ∉ n -> str_size (quoted_line n p) <= INT_MAX ->
  read_line (quoted_line n p) cs = Some (cs ++ [mkContact n p]).
Proof.
  intros Hno Hfit. unfold read_line, find.
  assert (str_size (quoted_line n p)
          = Z.of_nat (length n) + Z.of_nat (length p) + 5) as Hsize.
  { unfold str_size, quoted_line. rewrite !length_app. cbn [length]. lia. }
  rewrite Hsize in *. unfold INT_MAX in Hfit.
  replace (str_empty (quoted_line n p)) with false by done.
  assert (find_from [comma] (quoted_line n p) 0
          = Some (Z.of_nat (length n) + 2)) as ->.
  { replace (quoted_line n p)
      with ((dquote :: n ++ [dquote]) ++ comma :: (dquote :: p ++ [dquote])).
    - rewrite find_from_char.
      + f_equal. cbn. rewrite length_app. cbn. lia.
      + rewrite not_elem_of_cons, not_elem_of_app, not_elem_of_cons.
        repeat split; [discriminate|done|discriminate|apply not_elem_of_nil].
    - unfold quoted_line. cbn. f_equal. by rewrite <- app_assoc. }
  change (pos_or_npos (Some ?x)) with x.
  rewrite (to_int_id (Z.of_nat (length n) + 2))
    by int_range.
  rewrite !to_int_id by int_range.
  rewrite !to_size_t_id by lia.
  destruct (Z.eqb_spec (Z.of_nat (length n) + 2) npos) as [Heq|_].
  { unfold npos in Heq. lia. }
  assert (substr (quoted_line n p) 1 (Z.of_nat (length n) + 2 - 2) = Some n) as ->.
  { apply (substr_mid [dquote] n (dquote :: comma :: dquote :: p ++ [dquote]));
      [reflexivity|lia]. }
  assert (substr (quoted_line n p) (Z.of_nat (length n) + 2 + 2)
            (Z.of_nat (length n) + Z.of_nat (length p) + 5
             - (Z.of_nat (length n) + 2) - 3) = Some p) as ->.
  { replace (quoted_line n p)
      with ((dquote :: n ++ [dquote; comma; dquote]) ++ p ++ [dquote]).
    - apply substr_mid; [cbn; rewrite length_app; cbn; lia | lia].
    - unfold quoted_line. cbn. f_equal. by rewrite <- app_assoc. }
  done.
Qed.

Lemma to_size_t_negative z : - 2 ^ 64 <= z < 0 -> to_size_t z = z + 2 ^ 64.
Proof.
  intros H. unfold to_size_t.
  rewrite <- (Z.mod_add z 1 (2 ^ 64)) by lia.
  apply Z.mod_small. lia.
Qed.

Lemma substr_in_range (s : str) pos n :
  0 <= pos <= str_size s ->
  substr s pos n
  = Some (take (Z.to_nat (Z.min n (str_size s - pos))) (drop (Z.to_nat pos) s)).
Proof.
  intros H. unfold substr. destruct (Z.ltb_spec (str_size s) pos); [lia|done].
Qed.

Lemma read_line_clips pre post cs :
  comma ∉ pre -> post <> [] ->
  str_size (pre ++ comma :: post) <= INT_MAX ->
  read_line (pre ++ comma :: post) cs = Some (cs ++ [clipped pre post]).
Proof.
  intros Hno Hpost Hfit. unfold read_line, find.
  replace (str_empty (pre ++ comma :: post)) with false by (by destruct pre).
  rewrite find_from_char by done.
  change (pos_or_npos (Some ?x)) with x. rewrite Z.add_0_l.
  assert (1 <= Z.of_nat (length post)) as Hp by (destruct post; [done|cbn; lia]).
  assert (str_size (pre ++ comma :: post)
          = Z.of_nat (length pre) + 1 + Z.of_nat (length post)) as Hsize.
  { unfold str_size. rewrite length_app. cbn [length]. lia. }
  rewrite Hsize in *. unfold INT_MAX in Hfit.
  rewrite (to_int_id (Z.of_nat (length pre))) by int_range.
  rewrite (to_int_id (Z.of_nat (length pre) - 2)) by int_range.
  rewrite (to_int_id (Z.of_nat (length pre) + 2)) by int_range.
  rewrite (to_size_t_id (Z.of_nat (length pre))) by lia.
  rewrite (to_size_t_id (Z.of_nat (length pre) + 2)) by lia.
  destruct (Z.eqb_spec (Z.of_nat (length pre)) npos) as [Heq|_].
  { unfold npos in Heq. lia. }
  rewrite !substr_in_range by lia. rewrite Hsize.
  cbn [mbind option_bind]. do 3 f_equal. unfold clipped. f_equal.
  - destruct (Nat.leb_spec 2 (length pre)) as [Hlen|Hlen].
    + rewrite to_size_t_id by lia. unfold inner.
      replace (Z.to_nat (Z.min _ _)) with (length pre - 2)%nat by lia.
      change (Z.to_nat 1) with 1%nat.
      rewrite drop_app_le by lia. apply take_app_le.
      rewrite length_drop. lia.
    + rewrite to_size_t_negative by lia.
      change (Z.to_nat 1) with 1%nat.
      apply take_ge. rewrite length_drop, length_app. cbn [length]. lia.
  - unfold inner.
    replace (drop (Z.to_nat (Z.of_nat (length pre) + 2)) (pre ++ comma :: post))
      with (drop 1 post).
    2:{ replace (Z.to_nat (Z.of_nat (length pre) + 2))
          with (length pre + 2)%nat by lia.
        rewrite drop_app_add'  by done. done. }
    f_equal.
    destruct (Z.le_gt_cases 2 (Z.of_nat (length post))).
    + rewrite to_size_t_id by lia. lia.
    + rewrite to_size_t_negative by lia. lia.
Qed.

Lemma read_line_trailing_comma pre cs :
  comma ∉ pre -> str_size (pre ++ [comma]) < INT_MAX ->
  read_line (pre ++ [comma]) cs = None.
Proof.
  intros Hno Hfit. unfold read_line, find.
  replace (str_empty (pre ++ [comma])) with false by (by destruct pre).
  rewrite find_from_char by done.
  change (pos_or_npos (Some ?x)) with x. rewrite Z.add_0_l.
  assert (str_size (pre ++ [comma]) = Z.of_nat (length pre) + 1) as Hsize.
  { unfold str_size. rewrite length_app. cbn [length]. lia. }
  rewrite Hsize in *. unfold INT_MAX in Hfit.
  rewrite (to_int_id (Z.of_nat (length pre))) by int_range.
  rewrite (to_int_id (Z.of_nat (length pre) + 2)) by int_range.
  rewrite (to_size_t_id (Z.of_nat (length pre))) by lia.
  rewrite (to_size_t_id (Z.of_nat (length pre) + 2)) by lia.
  destruct (Z.eqb_spec (Z.of_nat (length pre)) npos) as [Heq|_].
  { unfold npos in Heq. lia. }
  rewrite (substr_in_range _ 1) by lia. cbn [mbind option_bind].
  unfold substr. rewrite Hsize.
  by destruct (Z.ltb_spec (Z.of_nat (length pre) + 1) (Z.of_nat (length pre) + 2));
    [|lia].
Qed.

Lemma read_line_never_plain pre post cs :
  comma ∉ pre -> str_size (pre ++ comma :: post) < INT_MAX ->
  read_line (pre ++ comma :: post) cs <> Some (cs ++ [mkContact pre post]).
Proof.
  intros Hno Hfit. destruct post as [|b post].
  - by rewrite read_line_trailing_comma.
  - rewrite read_line_clips by (done || lia).
    intros Heq.
    assert (clipped pre (b :: post) = mkContact pre (b :: post)) as Hc.
    { injection Heq as Heq. apply app_inv_head in Heq. congruence. }
    apply (f_equal (fun c => length (name c))) in Hc as Hname.
    unfold clipped in Hname. cbn [name] in Hname.
    destruct (Nat.leb_spec 2 (length pre)) as [Hlen|Hlen].
    + unfold inner in Hname. rewrite length_take, length_drop in Hname. lia.
    + rewrite length_drop, length_app in Hname. cbn [length] in Hname. lia.
Qed.

(** C6, as the specification words it, fails on an unquoted line: the
    line "Ann,123" yields the record ("n","2"), because the name is taken
    from position 1 with length [comma - 2] and the phone from position
    [comma + 2] with length [size - comma - 3], which on this line drops
    the first and the last character and the two characters next to the
    comma.  A quoted first field that holds a comma is cut at that
    comma. *)
Lemma unquoted_line_is_clipped :
  read_phonebook [of_string "Ann,123"] []
  = Some [mkContact "n"%string "2"%string] /\
  read_phonebook [of_string "Ann,123"] []
  <> Some [mkContact "Ann"%string "123"%string] /\
  read_phonebook [quoted_line "Lee, Ann"%string "1"%string] []
  <> Some [mkContact "Lee, Ann"%string "1"%string].
Proof. repeat split; [discriminate | vm_compute; discriminate]. Qed.

(** C6, amended.  A line without a comma is skipped: no error and no
    record.  A line made of the two fields, each in double quotes, with a
    comma between them and no comma in the first field (the line at most
    INT_MAX characters long) yields the record of the two fields without
    their quotes.  Quoting is not optional.  Write a line that holds a
    comma as [pre], its first comma, [post].  If [post] is empty, reading
    the line throws.  Otherwise the phone is [post] without its first and
    last character, and the name is [pre] without its first and last
    character when [pre] has two characters or more, and the whole line
    after its first character when [pre] is shorter.  The record is never
    ([pre], [post]), the two fields as an unquoted line gives them. *)
Theorem read_line_skips_or_unquotes :
  (forall (line : str) (cs : list Contact),
     comma ∉ line -> read_line line cs = Some cs) /\
  (forall (n p : str) (cs : list Contact),
     comma ∉ n -> str_size (quoted_line n p) <= INT_MAX ->
     read_line (quoted_line n p) cs = Some (cs ++ [mkContact n p])) /\
  (forall (pre post : str) (cs : list Contact),
     comma ∉ pre -> post <> [] ->
     str_size (pre ++ comma :: post) <= INT_MAX ->
     read_line (pre ++ comma :: post) cs = Some (cs ++ [clipped pre post])) /\
  (forall (pre : str) (cs : list Contact),
     comma ∉ pre -> str_size (pre ++ [comma]) < INT_MAX ->
     read_line (pre ++ [comma]) cs = None) /\
  (forall (pre post : str) (cs : list Contact),
     comma ∉ pre -> str_size (pre ++ comma :: post) < INT_MAX ->
     read_line (pre ++ comma :: post) cs
     <> Some (cs ++ [mkContact pre post])).
Proof.
  split; [|split; [|split; [|split]]].
  - apply read_line_no_comma.
  - apply read_line_quoted.
  - apply read_line_clips.
  - apply read_line_trailing_comma.
  - apply read_line_never_plain.
Qed.

Lemma read_line_skips_or_unquotes_witness :
  read_line (quoted_line "Ann"%string "1,2"%string) []
  = Some ([] ++ [mkContact "Ann"%string "1,2"%string]) /\
  read_line ("a,b"%string) [] = Some [mkContact ",b"%string []] /\
  read_line (",A,B"%string) [] = Some [mkContact "A,B"%string ","%string] /\
  read_line ("x,"%string) [] = None /\
  read_line ("Ann,123"%string) []
  <> Some ([] ++ [mkContact "Ann"%string "123"%string]).
Proof.
  destruct read_line_skips_or_unquotes
    as (_ & Hquoted & Hclips & Hthrows & Hnever).
  split; [|split; [|split; [|split]]].
  - apply Hquoted; [absent | vm_compute; discriminate].
  - apply (Hclips ("a"%string : str) ("b"%string : str) []);
      [absent | discriminate | vm_compute; discriminate].
  - apply (Hclips [] ("A,B"%string : str) []);
      [apply not_elem_of_nil | discriminate | vm_compute; discriminate].
  - apply (Hthrows ("x"%string : str) []); [absent | vm_compute; reflexivity].
  - apply (Hnever ("Ann"%string : str) ("123"%string : str) []);
      [absent | vm_compute; reflexivity].
Defined.

(** ** Facts about the texts that travel *)

Lemma in_flight_empty s d : in_flight ∅ s d = [].
Proof. unfold in_flight. by rewrite lookup_empty. Qed.

Lemma length_encode_app l1 l2 :
  length (encode (l1 ++ l2)) = (length (encode l1) + length (encode l2))%nat.
Proof. unfold encode. by rewrite fmap_app, concat_app, length_app. Qed.

Lemma length_encode_records cs r :
  (length (encode (records_of cs r)) <= length (encode cs))%nat.
Proof.
  unfold records_of.
  rewrite <- (take_drop (Z.to_nat (fst r)) cs) at 2.
  rewrite <- (take_drop (Z.to_nat (snd r - fst r)) (drop (Z.to_nat (fst r)) cs)) at 2.
  rewrite !length_encode_app. lia.
Qed.

Lemma append_if_nonempty (r m : str) :
  (if negb (str_empty m) then r ++ m else r) = r ++ m.
Proof. destruct m; [by rewrite app_nil_r|done]. Qed.

Lemma search_all_cons c cs search :
  search_all (c :: cs) search = check c search ++ search_all cs search.
Proof. done. Qed.

Lemma search_all_app l1 l2 search :
  search_all (l1 ++ l2) search = search_all l1 search ++ search_all l2 search.
Proof. unfold search_all. by rewrite fmap_app, concat_app. Qed.

Lemma search_all_concat ls search :
  search_all (concat ls) search
  = concat ((fun l => search_all l search) <$> ls).
Proof.
  induction ls as [|l ls IH]; [done|]. cbn [concat fmap list_fmap].
  by rewrite search_all_app, IH.
Qed.

Lemma worker_search_spec cs search :
  worker_search cs search = search_all cs search.
Proof.
  unfold worker_search.
  assert (forall acc,
    for_each cs
      (fun c result =>
         let match_ := check c search in
         Some (if negb (str_empty match_) then result ++ match_ else result))
      acc = Some (acc ++ search_all cs search)) as H.
  { induction cs as [|c cs IH]; intros acc; cbn [for_each].
    - by rewrite app_nil_r.
    - cbn [mbind option_bind]. rewrite append_if_nonempty, IH, search_all_cons.
      by rewrite <- app_assoc. }
  by rewrite H.
Qed.

Lemma length_check c search :
  (length (check c search) <= length (encode_line c))%nat.
Proof.
  unfold check, encode_line. destruct (find (name c) search); cbn; [|lia].
  rewrite !length_app. cbn. lia.
Qed.

Lemma length_search_all cs search :
  (length (search_all cs search) <= length (encode cs))%nat.
Proof.
  induction cs as [|c cs IH]; [done|].
  rewrite search_all_cons, length_encode_cons, length_app.
  pose proof (length_check c search). lia.
Qed.

Lemma nul_not_in_encode cs :
  (forall c, c ∈ cs -> transferable c) -> nul ∉ encode cs.
Proof.
  unfold encode. induction cs as [|c cs IH]; intros Hcs; cbn.
  - apply not_elem_of_nil.
  - destruct (Hcs c) as (_ & _ & Hn & _ & Hp); [left|].
    unfold encode_line. rewrite !not_elem_of_app, !not_elem_of_cons.
    repeat split; try done; try discriminate; try apply not_elem_of_nil.
    apply IH. intros c' Hc'. apply Hcs. by right.
Qed.

Lemma nul_not_in_search_all cs search :
  (forall c, c ∈ cs -> transferable c) -> nul ∉ search_all cs search.
Proof.
  induction cs as [|c cs IH]; intros Hcs.
  - apply not_elem_of_nil.
  - rewrite search_all_cons, not_elem_of_app. split.
    + destruct (Hcs c) as (_ & _ & Hn & _ & Hp); [left|].
      unfold check. destruct (find (name c) search); [|apply not_elem_of_nil].
      rewrite !not_elem_of_app, !not_elem_of_cons.
      repeat split; try done; try discriminate; apply not_elem_of_nil.
    + apply IH. intros c' Hc'. apply Hcs. by right.
Qed.

Lemma elem_of_records_of (c : Contact) cs r : c ∈ records_of cs r -> c ∈ cs.
Proof.
  unfold records_of. intros Hc.
  apply (subseteq_drop (Z.to_nat (fst r))).
  by apply (subseteq_take (Z.to_nat (snd r - fst r))).
Qed.

(** A worker that finds the text of [recs] on its channel answers with
    the matches among [recs]. *)
Lemma worker_main_spec rank search recs net :
  rank <> 0 ->
  (forall c, c ∈ recs -> transferable c) ->
  str_size (encode recs) + 1 <= INT_MAX ->
  in_flight net 0 rank = frame (encode recs) ->
  exists net', worker_main rank search net = Some net' /\
    forall s d, in_flight net' s d
                = if decide ((s, d) = (0, rank)) then []
                  else if decide ((s, d) = (rank, 0))
                       then in_flight net rank 0 ++ frame (search_all recs search)
                       else in_flight net s d.
Proof.
  intros Hrank Hrecs Hfit Hq. unfold worker_main.
  rewrite <- (app_nil_r (frame _)) in Hq.
  destruct (receive_string_spec (encode recs) [] 0 rank net) as (net1 & -> & H1);
    [done..|].
  cbn [mbind option_bind].
  rewrite before_nul_no_nul by (by apply nul_not_in_encode).
  rewrite string_to_contacts_encode.
  - cbn [mbind option_bind]. rewrite worker_search_spec.
    destruct (send_string_spec (search_all recs search) rank 0 net1)
      as (net2 & -> & H2).
    { pose proof (length_search_all recs search). unfold str_size in *. lia. }
    exists net2. split; [done|]. intros s d. rewrite H2.
    destruct (decide ((s, d) = (rank, 0))) as [Heq|Hne].
    + injection Heq as -> ->. rewrite decide_False by congruence.
      rewrite H1, decide_False by congruence. done.
    + rewrite H1. by destruct (decide ((s, d) = (0, rank))).
  - intros c Hc. destruct (Hrecs c Hc) as (? & ? & ? & ? & ?). done.
  - unfold str_size in *. lia.
Qed.

Lemma records_prefix cs c n :
  0 <= c -> 0 <= n ->
  concat ((fun i => records_of cs
                      (i * c, Z.min ((i + 1) * c) (Z.of_nat (length cs))))
            <$> seqZ 0 n)
  = take (Z.to_nat (Z.min (n * c) (Z.of_nat (length cs)))) cs.
Proof.
  intros Hc Hn. rewrite <- (Z2Nat.id n Hn). clear Hn.
  generalize (Z.to_nat n) as m. clear n. intros n.
  induction n as [|n IH].
  { by replace (Z.to_nat _) with 0%nat by lia. }
  rewrite seqZ_S, fmap_app, concat_app, IH. cbn [fmap list_fmap concat].
  rewrite app_nil_r, Z.add_0_l. unfold records_of. cbn [fst snd].
  destruct (Z.le_gt_cases (Z.of_nat n * c) (Z.of_nat (length cs))) as [Hle|Hgt].
  - rewrite (Z.min_l (Z.of_nat n * c)) by done.
    rewrite take_take_drop. f_equal. lia.
  - replace (Z.to_nat (Z.min ((Z.of_nat n + 1) * c) (Z.of_nat (length cs))
                       - Z.of_nat n * c)) with 0%nat by lia.
    cbn [take]. rewrite app_nil_r. f_equal. lia.
Qed.

(** ** One run of the search program *)

Section SearchRun.

Variable size : Z.
Variable cs : list Contact.
Hypothesis Hsize : 1 <= size.
Hypothesis Hfit : Z.of_nat (length cs) + size <= INT_MAX.

(** The records of rank [i]. *)
Local Abbreviation block i :=
  (records_of cs (rank_range (Z.of_nat (length cs)) size i)).

(** The text that line 114 builds for worker [i]. *)
Lemma worker_text i :
  1 <= i < size ->
  vector_to_string cs
    (to_int (i * chunk_of (to_int (Z.of_nat (length cs))) size))
    (to_int (to_int (i + 1) * chunk_of (to_int (Z.of_nat (length cs))) size))
  = Some (encode (block i)).
Proof using Hsize Hfit.
  intros Hi.
  rewrite (to_int_id (Z.of_nat (length cs))) by int_range.
  pose proof (rank_range_eq (Z.of_nat (length cs)) size i
                ltac:(lia) Hsize Hfit ltac:(lia)) as Hr.
  destruct (chunk_of_bounds (Z.of_nat (length cs)) size) as [Hc0 Hc];
    [lia|done..|].
  unfold rank_range in Hr |- *.
  destruct (Z.eqb_spec i 0) as [?|_]; [lia|].
  injection Hr as Hlo Hhi.
  rewrite vector_to_string_spec; [done| |int_range].
  rewrite Hlo. nia.
Qed.

(** Lines 120-124 search the records of rank 0. *)
Lemma master_search_spec search :
  master_search size cs search = Some (search_all (block 0) search).
Proof using Hsize Hfit.
  unfold master_search, for_range, rank_range, records_of.
  rewrite (to_int_id (Z.of_nat (length cs))) by int_range.
  destruct (chunk_of_bounds (Z.of_nat (length cs)) size) as [Hc0 Hc];
    [lia|done..|].
  cbn [Z.eqb fst snd].
  rewrite (for_loop_vec cs
    (fun c r => if negb (str_empty (check c search))
                then r ++ check c search else r)) by lia.
  f_equal.
  generalize (take (Z.to_nat (Z.min (chunk_of (Z.of_nat (length cs)) size)
                                    (Z.of_nat (length cs)) - 0))
                   (drop (Z.to_nat 0) cs)) as l.
  intros l. rewrite <- (app_nil_l (search_all l search)).
  generalize (@nil ascii) as acc.
  induction l as [|c l IH]; intros acc; cbn [foldl].
  - by rewrite app_nil_r.
  - rewrite append_if_nonempty, IH, search_all_cons. by rewrite <- app_assoc.
Qed.

(** The blocks of the ranks, in rank order, are the data set. *)
Lemma records_tile : concat ((fun i => block i) <$> seqZ 0 size) = cs.
Proof using Hsize Hfit.
  destruct (chunk_of_bounds (Z.of_nat (length cs)) size) as [Hc0 Hc];
    [lia|done..|].
  rewrite (list_fmap_ext _
    (fun i => records_of cs
                (i * chunk_of (Z.of_nat (length cs)) size,
                 Z.min ((i + 1) * chunk_of (Z.of_nat (length cs)) size)
                       (Z.of_nat (length cs))))).
  - rewrite records_prefix by lia. apply firstn_all2. lia.
  - intros k i Hk. apply list_elem_of_lookup_2, elem_of_seqZ in Hk.
    by rewrite rank_range_eq by (done || lia).
Qed.

Hypothesis Htext : str_size (encode cs) + 1 <= INT_MAX.

Lemma block_text_fits i : str_size (encode (block i)) + 1 <= INT_MAX.
Proof using Htext.
  pose proof (length_encode_records cs
    (rank_range (Z.of_nat (length cs)) size i)).
  unfold str_size in *. lia.
Qed.

(** Lines 113-116 leave one framed text per worker in flight. *)
Lemma master_distribute_spec :
  exists net, master_distribute size cs ∅ = Some net /\
    forall s d, in_flight net s d
                = if decide (s = 0 /\ 1 <= d < size)
                  then frame (encode (block d)) else [].
Proof using Hsize Hfit Htext.
  unfold master_distribute.
  pose (I := fun (k : Z) (net : network) => forall s d,
       in_flight net s d
       = if decide (s = 0 /\ 1 <= d < k)
         then frame (encode (block d)) else []).
  match goal with
  | |- context [for_range 1 size ?body ∅] =>
      destruct (for_range_inv I 1 size body ∅) as (net & Hrun & HI)
  end; [done| | |by exists net].
  - intros s d. rewrite in_flight_empty, decide_False; [done|lia].
  - intros i net Hi Hnet. rewrite worker_text by done. cbn [mbind option_bind].
    destruct (send_string_spec (encode (block i)) 0 i net (block_text_fits i))
      as (net' & -> & Hnet').
    exists net'. split; [done|]. intros s d. rewrite Hnet'.
    destruct (decide ((s, d) = (0, i))) as [Heq|Hne].
    + injection Heq as -> ->. rewrite Hnet.
      rewrite decide_False by lia. rewrite decide_True by lia. done.
    + rewrite Hnet. destruct (decide (s = 0 /\ 1 <= d < i)) as [?|Hn1].
      * rewrite decide_True by lia. done.
      * rewrite decide_False; [done|]. intros [-> ?].
        destruct (decide (d = i)) as [->|?]; [done|lia].
Qed.

Lemma worker_received_spec rank :
  1 <= rank < size ->
  worker_received size cs rank = Some (before_nul (encode (block rank))).
Proof using Hsize Hfit Htext.
  intros Hrank. unfold worker_received.
  destruct master_distribute_spec as (net & -> & Hnet).
  cbn [mbind option_bind].
  pose proof (Hnet 0 rank) as Hq. rewrite decide_True in Hq by lia.
  rewrite <- (app_nil_r (frame _)) in Hq.
  by destruct (receive_string_spec (encode (block rank)) [] 0 rank net
                 (block_text_fits rank) Hq) as (net' & -> & _).
Qed.

Hypothesis Hcs : forall c, c ∈ cs -> transferable c.
Variable search : str.

Lemma block_transferable i c : c ∈ block i -> transferable c.
Proof using Hcs. intros Hc. apply Hcs. by eapply elem_of_records_of. Qed.

(** The answer of worker [s]. *)
Local Abbreviation answer s := (search_all (block s) search).

Lemma answer_fits i : str_size (answer i) + 1 <= INT_MAX.
Proof using Htext.
  pose proof (length_search_all (block i) search).
  pose proof (block_text_fits i). unfold str_size in *. lia.
Qed.

(** Lines 143-156 on every worker turn the texts in flight into answers. *)
Lemma workers_spec net :
  (forall s d, in_flight net s d
               = if decide (s = 0 /\ 1 <= d < size)
                 then frame (encode (block d)) else []) ->
  exists net', for_range 1 size (fun i net => worker_main i search net) net
               = Some net' /\
    forall s d, in_flight net' s d
                = if decide (d = 0 /\ 1 <= s < size)
                  then frame (answer s) else [].
Proof using Hsize Htext Hcs.
  intros Hnet.
  pose (J := fun (k : Z) (net : network) => forall s d,
       in_flight net s d
       = if decide (s = 0 /\ k <= d < size)
         then frame (encode (block d))
         else if decide (d = 0 /\ 1 <= s < k)
              then frame (answer s) else []).
  destruct (for_range_inv J 1 size (fun i net => worker_main i search net) net)
    as (net' & Hrun & HJ); [done| | |].
  - intros s d. rewrite Hnet. destruct (decide (s = 0 /\ 1 <= d < size)); [done|].
    by rewrite decide_False by lia.
  - intros i t Hi Ht.
    destruct (worker_main_spec i search (block i) t)
      as (t' & Hw & Ht'); [lia|apply block_transferable|apply block_text_fits| |].
    + rewrite Ht. by rewrite decide_True by lia.
    + exists t'. split; [done|]. intros s d. rewrite Ht', !Ht.
      destruct (decide ((s, d) = (0, i))) as [Heq|Hn1].
      { injection Heq as -> ->. by rewrite !decide_False by lia. }
      destruct (decide ((s, d) = (i, 0))) as [Heq|Hn2].
      { injection Heq as -> ->.
        rewrite (decide_False (P := i = 0 /\ i <= 0 < size)) by lia.
        rewrite (decide_False (P := 0 = 0 /\ 1 <= i < i)) by lia.
        rewrite (decide_False (P := i = 0 /\ i + 1 <= 0 < size)) by lia.
        by rewrite decide_True by lia. }
      assert (~ (s = 0 /\ d = i)) by (intros [-> ->]; done).
      assert (~ (s = i /\ d = 0)) by (intros [-> ->]; done).
      repeat case_decide; try done; lia.
  - exists net'. split; [done|]. intros s d. rewrite HJ.
    by rewrite decide_False by lia.
Qed.

(** Lines 128-131 append the answers in rank order. *)
Lemma master_collect_spec local net :
  (forall s d, in_flight net s d
               = if decide (d = 0 /\ 1 <= s < size)
                 then frame (answer s) else []) ->
  fst <$> master_collect size local net
  = Some (local ++ concat ((fun s => answer s) <$> seqZ 1 (size - 1))).
Proof using Hsize Htext Hcs.
  intros Hnet. unfold master_collect.
  pose (L := fun (k : Z) (st : str * network) =>
    fst st = local ++ concat ((fun s => answer s) <$> seqZ 1 (k - 1)) /\
    forall s d, in_flight (snd st) s d
                = if decide (d = 0 /\ k <= s < size)
                  then frame (answer s) else []).
  match goal with
  | |- context [for_range 1 size ?body (local, net)] =>
      destruct (for_range_inv L 1 size body (local, net))
        as ([res net'] & Hrun & Hres & _)
  end; [done| | |].
  - split; [by rewrite app_nil_r|done].
  - intros i [res t] Hi [Hres Ht]. cbn [fst snd] in *.
    destruct (receive_string_spec (answer i) [] i 0 t (answer_fits i))
      as (t' & Hr & Ht').
    + rewrite Ht, decide_True by lia. by rewrite app_nil_r.
    + rewrite Hr. cbn [mbind option_bind]. eexists. split; [done|].
      cbn [fst snd]. split.
      * rewrite append_if_nonempty, Hres.
        rewrite before_nul_no_nul
          by (apply nul_not_in_search_all, block_transferable).
        replace (i + 1 - 1) with ((i - 1) + 1) by lia.
        rewrite seqZ_app by lia. rewrite fmap_app, concat_app.
        replace (1 + (i - 1)) with i by lia.
        change (seqZ i 1) with [i]. cbn [fmap list_fmap concat].
        by rewrite app_nil_r, <- app_assoc.
      * intros s d. rewrite Ht', Ht.
        destruct (decide ((s, d) = (i, 0))) as [Heq|Hne].
        { injection Heq as -> ->. by rewrite decide_False by lia. }
        assert (~ (s = i /\ d = 0)) by (intros [-> ->]; done).
        repeat case_decide; try done; lia.
  - rewrite Hrun. cbn [fst] in Hres. cbn. by rewrite Hres.
Qed.

(** The whole run writes what one search over all records finds. *)
Lemma run_is_search_all : run size cs search = Some (search_all cs search).
Proof using Hsize Hfit Htext Hcs.
  unfold run.
  destruct master_distribute_spec as (net & -> & Hnet).
  cbn [mbind option_bind]. rewrite master_search_spec.
  cbn [mbind option_bind].
  destruct (workers_spec net Hnet) as (net' & -> & Hnet').
  cbn [mbind option_bind].
  rewrite (master_collect_spec _ _ Hnet'). f_equal.
  rewrite <- records_tile at 3.
  rewrite search_all_concat, <- list_fmap_compose.
  rewrite (seqZ_cons 0 size) by lia. cbn [fmap list_fmap concat].
  by replace (Z.pred size) with (size - 1) by lia.
Qed.

End SearchRun.

(** C9.  Partition visibility: what worker [rank >= 1] receives from the
    coordinator is the text of the records of its own range
    [rank*chunk, min((rank+1)*chunk, T)) (up to the first NUL of that
    text) and of nothing else: two data sets of the same size that agree
    on that range give the worker the same text.  The sizes are those the
    [int] arithmetic of the program represents. *)
Theorem worker_receives_own_partition_only
    (size rank : Z) (cs cs' : list Contact) :
  1 <= rank < size ->
  Z.of_nat (length cs) + size <= INT_MAX ->
  str_size (encode cs) + 1 <= INT_MAX ->
  str_size (encode cs') + 1 <= INT_MAX ->
  length cs' = length cs ->
  records_of cs' (rank_range (Z.of_nat (length cs)) size rank)
  = records_of cs (rank_range (Z.of_nat (length cs)) size rank) ->
  rank_range (Z.of_nat (length cs)) size rank
  = (rank * ceil_div (Z.of_nat (length cs)) size,
     Z.min ((rank + 1) * ceil_div (Z.of_nat (length cs)) size)
           (Z.of_nat (length cs))) /\
  worker_received size cs rank
  = Some (before_nul
            (encode (records_of cs (rank_range (Z.of_nat (length cs)) size rank)))) /\
  worker_received size cs' rank = worker_received size cs rank.
Proof.
  intros Hrank Hfit Htext Htext' Hlen Hsame. split; [|split].
  - rewrite <- chunk_of_ceil by (done || lia). apply rank_range_eq; lia.
  - apply worker_received_spec; (done || lia).
  - rewrite !worker_received_spec by (done || lia || by rewrite ?Hlen).
    by rewrite Hlen, Hsame.
Qed.

Lemma worker_receives_own_partition_only_witness :
  worker_received 2
    [mkContact "Zed"%string "0"%string; mkContact "Bob"%string "456"%string] 1
  = worker_received 2
    [mkContact "Ann"%string "123"%string; mkContact "Bob"%string "456"%string] 1.
Proof.
  apply (worker_receives_own_partition_only 2 1
    [mkContact "Ann"%string "123"%string; mkContact "Bob"%string "456"%string]
    [mkContact "Zed"%string "0"%string; mkContact "Bob"%string "456"%string]);
    try reflexivity; try lia; vm_compute; discriminate.
Defined.

(** ** Partition invariance of the matrix program *)

Lemma pure_loop_ext {St : Type} (f g : Z -> St -> St) n i s :
  (forall j t, i <= j < i + Z.of_nat n -> f j t = g j t) ->
  pure_loop n i f s = pure_loop n i g s.
Proof.
  revert i s. induction n as [|n IH]; intros i s H; [done|].
  cbn [pure_loop]. rewrite H by lia. apply IH. intros j t Hj. apply H. lia.
Qed.

Lemma vec_at_scatter_block (X : Matrix.tensor) count rank k :
  0 <= rank -> 0 <= k < count ->
  vec_at (Matrix.scatter_block X count rank) k = vec_at X (rank * count + k).
Proof.
  intros Hrank Hk. unfold vec_at, Matrix.scatter_block.
  destruct (Z.ltb_spec k 0); [lia|].
  destruct (Z.ltb_spec (rank * count + k) 0); [nia|].
  rewrite lookup_take_lt by lia. rewrite lookup_drop. f_equal. nia.
Qed.

Lemma cell_scatter_block (X : Matrix.tensor) count rank k i j :
  0 <= rank -> 0 <= k < count ->
  Matrix.cell (Matrix.scatter_block X count rank) k i j
  = Matrix.cell X (rank * count + k) i j.
Proof.
  intros Hrank Hk. unfold Matrix.cell. by rewrite vec_at_scatter_block.
Qed.

Lemma dot_cell_scatter_block N A B count rank k i j :
  0 <= rank -> 0 <= k < count ->
  Matrix.dot_cell N (Matrix.scatter_block A count rank)
                    (Matrix.scatter_block B count rank) k i j
  = Matrix.dot_cell N A B (rank * count + k) i j.
Proof.
  intros Hrank Hk. unfold Matrix.dot_cell, pure_range. f_equal.
  apply pure_loop_ext. intros l r _. by rewrite !cell_scatter_block.
Qed.

Lemma kernel_scatter_block M N P A B count rank :
  0 <= rank -> 0 <= count ->
  Matrix.kernel count M N P (Matrix.scatter_block A count rank)
                            (Matrix.scatter_block B count rank)
  = (fun k =>
       (fun i => (fun j => Matrix.dot_cell N A B k i j) <$> seqZ 0 P)
         <$> seqZ 0 M)
      <$> seqZ (rank * count) count.
Proof.
  intros Hrank Hcount. unfold Matrix.kernel.
  rewrite <- (Z.add_0_r (rank * count)) at 1.
  rewrite <- (fmap_add_seqZ (rank * count) 0 count), <- list_fmap_compose.
  apply list_fmap_ext. intros n k Hk. cbn.
  apply list_elem_of_lookup_2, elem_of_seqZ in Hk.
  apply list_fmap_ext. intros ? i _. apply list_fmap_ext. intros ? j _.
  apply dot_cell_scatter_block; lia.
Qed.

Lemma concat_seqZ_blocks c n :
  0 <= c -> 0 <= n ->
  concat ((fun r => seqZ (r * c) c) <$> seqZ 0 n) = seqZ 0 (n * c).
Proof.
  intros Hc Hn. rewrite <- (Z2Nat.id n Hn). clear Hn.
  generalize (Z.to_nat n) as m. clear n. intros n.
  induction n as [|n IH]; [done|].
  rewrite seqZ_S, fmap_app, concat_app, IH. cbn [fmap list_fmap concat].
  rewrite app_nil_r, Z.add_0_l.
  replace (Z.of_nat (S n) * c) with (Z.of_nat n * c + c) by lia.
  rewrite seqZ_app by lia. done.
Qed.

Lemma concat_fmap_blocks {A B C : Type} (f : A -> B) (g : C -> list A) l :
  concat ((fun r => f <$> g r) <$> l) = f <$> concat (g <$> l).
Proof.
  induction l as [|r l IH]; [done|]. cbn. by rewrite IH, fmap_app.
Qed.

Lemma mapM_Some_fmap {A B : Type} (f : A -> B) (l : list A) :
  mapM (fun x => Some (f x)) l = Some (f <$> l).
Proof. induction l as [|x l IH]; [done|]. cbn. by rewrite IH. Qed.

Lemma mapM_ext_in {A B : Type} (f g : A -> option B) (l : list A) :
  (forall x, x ∈ l -> f x = g x) -> mapM f l = mapM g l.
Proof.
  induction l as [|x l IH]; intros H; [done|]. cbn.
  rewrite H by left. rewrite IH; [done|]. intros y Hy. apply H. by right.
Qed.

Lemma matrix_gather_is_whole_kernel d size A B :
  1 <= size -> 0 <= Matrix.K d -> Z.rem (Matrix.K d) size = 0 ->
  Matrix.gathered d size A B
  = Some (Matrix.kernel (Matrix.K d) (Matrix.M d) (Matrix.N d) (Matrix.P d) A B).
Proof.
  intros Hsize HK Hrem. unfold Matrix.gathered.
  pose proof (Z.quot_rem' (Matrix.K d) size) as Hqr. rewrite Hrem in Hqr.
  assert (0 <= Z.quot (Matrix.K d) size) as Hq by (apply Z.quot_pos; lia).
  rewrite (mapM_ext_in _
    (fun rank => Some (
       (fun k =>
          (fun i => (fun j => Matrix.dot_cell (Matrix.N d) A B k i j)
                      <$> seqZ 0 (Matrix.P d)) <$> seqZ 0 (Matrix.M d))
         <$> seqZ (rank * Z.quot (Matrix.K d) size) (Z.quot (Matrix.K d) size)))).
  - rewrite mapM_Some_fmap. cbn [mbind option_bind]. f_equal.
    unfold Matrix.kernel.
    rewrite concat_fmap_blocks, concat_seqZ_blocks by lia.
    f_equal. f_equal. lia.
  - intros rank Hrank. apply elem_of_seqZ in Hrank. unfold Matrix.main.
    rewrite Hrem. cbn [Z.eqb negb Matrix.localR]. f_equal.
    apply kernel_scatter_block; lia.
Qed.

(** ** Partition invariance *)

(** Three processes, one file of three quoted lines, two matches. *)
Example main_finds_both_bobs :
  main 3
    [quoted_line "Bob Marley"%string "555-1212"%string ++ [nl] ++
     quoted_line "Ann Lee"%string "555-0000"%string ++ [nl] ++
     quoted_line "Jim Bob"%string "555-7777"%string ++ [nl]]
    "Bob"%string
  = Some ("Bob Marley 555-1212"%string ++ [nl] ++
          "Jim Bob 555-7777"%string ++ [nl]).
Proof. reflexivity. Qed.

(** C4, as the specification words it, fails for the search program: a
    name that holds a comma does not survive the text format.  The file
    below yields two records; with two processes the second record
    travels to the worker as ["A,B,,"], is parsed there with the name
    "A", and the match for "B" that the kernel finds on the whole data set
    is lost.  A newline or a NUL in a field of a record held by a worker
    changes the outcome in the same way. *)
Lemma lossy_text_breaks_invariance :
  read_phonebook
    [quoted_line "C"%string "2"%string ++ [nl] ++ ",A,B"%string] []
  = Some [mkContact "C"%string "2"%string; mkContact "A,B"%string ","%string] /\
  Z.rem 2 2 = 0 /\
  search_all [mkContact "C"%string "2"%string; mkContact "A,B"%string ","%string]
             "B"%string
  = "A,B ,"%string ++ [nl] /\
  run 2 [mkContact "C"%string "2"%string; mkContact "A,B"%string ","%string]
        "B"%string
  <> Some (search_all
             [mkContact "C"%string "2"%string; mkContact "A,B"%string ","%string]
             "B"%string) /\
  run 2 [mkContact "C"%string "2"%string;
         mkContact ("A"%string ++ [nl] ++ "Bob"%string) "1"%string] "Bo"%string
  <> Some (search_all
             [mkContact "C"%string "2"%string;
              mkContact ("A"%string ++ [nl] ++ "Bob"%string) "1"%string] "Bo"%string) /\
  run 2 [mkContact "C"%string "2"%string;
         mkContact ("Bo"%string ++ [nul] ++ "b"%string) "1"%string] "Bo"%string
  <> Some (search_all
             [mkContact "C"%string "2"%string;
              mkContact ("Bo"%string ++ [nul] ++ "b"%string) "1"%string] "Bo"%string) /\
  run 2 [mkContact "C"%string "2"%string;
         mkContact "Bob"%string ("4"%string ++ [nl] ++ "5"%string)] "Bo"%string
  <> Some (search_all
             [mkContact "C"%string "2"%string;
              mkContact "Bob"%string ("4"%string ++ [nl] ++ "5"%string)] "Bo"%string) /\
  run 2 [mkContact "C"%string "2"%string;
         mkContact "Bob"%string ("4"%string ++ [nul] ++ "5"%string)] "Bo"%string
  <> Some (search_all
             [mkContact "C"%string "2"%string;
              mkContact "Bob"%string ("4"%string ++ [nul] ++ "5"%string)] "Bo"%string).
Proof. repeat split; vm_compute; discriminate. Qed.

(** C4, amended.  Partition invariance, for every participant count that
    divides the size of the data set.  Matrix program: the blocks gathered
    in rank order are the kernel applied once to all K matrix pairs.
    Search program: when no name holds a comma, a newline or a NUL, no
    phone holds a newline or a NUL, and the counts and the text fit the
    [int]s of the program, the text rank 0 assembles (its own matches,
    then those of each worker in rank order) is the kernel applied once
    to the whole data set. *)
Theorem partition_invariance :
  (forall (d : Matrix.dims) (size : Z) (A B : Matrix.tensor),
     1 <= size -> 0 <= Matrix.K d -> Z.rem (Matrix.K d) size = 0 ->
     Matrix.gathered d size A B
     = Some (Matrix.kernel (Matrix.K d) (Matrix.M d) (Matrix.N d) (Matrix.P d)
                           A B)) /\
  (forall (size : Z) (cs : list Contact) (search : str),
     1 <= size -> Z.rem (Z.of_nat (length cs)) size = 0 ->
     (forall c, c ∈ cs -> transferable c) ->
     Z.of_nat (length cs) + size <= INT_MAX ->
     str_size (encode cs) + 1 <= INT_MAX ->
     run size cs search = Some (search_all cs search)).
Proof.
  split.
  - apply matrix_gather_is_whole_kernel.
  - intros size cs search Hsize _ Hcs Hfit Htext. by apply run_is_search_all.
Qed.

Lemma partition_invariance_witness :
  Matrix.gathered (Matrix.mkDims 2 1 2 1) 2
    [[[1; 2]]; [[3; 4]]] [[[5]; [6]]; [[7]; [8]]]
  = Some (Matrix.kernel 2 1 2 1 [[[1; 2]]; [[3; 4]]] [[[5]; [6]]; [[7]; [8]]]) /\
  run 2 [mkContact "Ann"%string "123"%string; mkContact "Bob"%string "456"%string]
        "Bob"%string
  = Some (search_all
            [mkContact "Ann"%string "123"%string;
             mkContact "Bob"%string "456"%string] "Bob"%string).
Proof.
  split.
  - apply (proj1 partition_invariance (Matrix.mkDims 2 1 2 1) 2);
      [lia | cbn; lia | reflexivity].
  - apply (proj2 partition_invariance); try reflexivity; try lia.
    + intros c Hc.
      apply elem_of_cons in Hc as [-> | Hc];
        [|apply list_elem_of_singleton in Hc as ->];
        repeat split; absent.
    + vm_compute. discriminate.
    + vm_compute. discriminate.
Defined.

(** * Further properties of the code *)

(** ** Decoding and reading records *)

Lemma for_each_app {A St : Type} (xs ys : list A)
    (body : A -> St -> option St) (s : St) :
  for_each (xs ++ ys) body s = s' ← for_each xs body s; for_each ys body s'.
Proof.
  revert s. induction xs as [|x xs IH]; intros s; [done|].
  cbn. destruct (body x s) as [s'|]; [|done]. cbn. apply IH.
Qed.

Lemma find_from_char_split c s i p :
  find_from [c] s i = Some p ->
  exists pre post,
    s = pre ++ c :: post /\ (c ∉ pre) /\ p = i + Z.of_nat (length pre).
Proof.
  revert i. induction s as [|a s IH]; intros i; cbn; [done|].
  destruct (Ascii.eqb_spec c a) as [->|Hne].
  - intros [= <-]. exists [], s. repeat split; [apply not_elem_of_nil|cbn; lia].
  - intros Hfind. destruct (IH _ Hfind) as (pre & post & -> & Hpre & ->).
    exists (a :: pre), post. repeat split.
    + by apply not_elem_of_cons.
    + cbn [length]. lia.
Qed.

Lemma find_from_char_absent c s i : find_from [c] s i = None -> c ∉ s.
Proof.
  revert i. induction s as [|a s IH]; intros i; cbn.
  - intros _. apply not_elem_of_nil.
  - destruct (Ascii.eqb_spec c a) as [->|Hne]; [done|].
    intros Hfind. apply not_elem_of_cons. split; [done|by eapply IH].
Qed.

Lemma getlines_from_lengths cur s :
  Forall (fun l => (length l <= length cur + length s)%nat)
         (getlines_from cur s).
Proof.
  revert cur. induction s as [|c s IH]; intros cur; cbn.
  - destruct cur; [constructor|]. constructor; [cbn; lia|constructor].
  - destruct (Ascii.eqb c nl).
    + constructor; [lia|].
      eapply Forall_impl; [apply (IH [])|]. cbn. intros l Hl. lia.
    + eapply Forall_impl; [apply (IH (cur ++ [c]))|]. cbn.
      intros l Hl. rewrite length_app in Hl. cbn in Hl. lia.
Qed.

Lemma parse_line_no_comma line cs : comma ∉ line -> parse_line line cs = Some cs.
Proof.
  intros Hno. unfold parse_line, find.
  destruct (str_empty line); [done|].
  by rewrite find_from_char_none by done.
Qed.

Lemma parse_lines_spec lines :
  Forall (fun l : str => str_size l < INT_MAX) lines ->
  exists cs,
    (forall acc, for_each lines parse_line acc = Some (acc ++ cs)) /\
    Forall2 (fun line c => line = name c ++ comma :: phone c /\ (comma ∉ name c))
            (filter (fun line : str => comma ∈ line) lines) cs.
Proof.
  induction 1 as [|line lines Hline _ (cs & Hrun & Hcs)].
  - exists []. split; [intros acc; cbn; by rewrite app_nil_r | constructor].
  - destruct (decide (comma ∈ line)) as [Hin|Hno].
    + apply list_elem_of_split_l in Hin as (pre & post & -> & Hpre).
      exists (mkContact pre post :: cs). split.
      * intros acc. cbn [for_each].
        change (pre ++ comma :: post) with (pre ++ [comma] ++ post) in *.
        rewrite (parse_line_fields pre post acc)
          by (done || (unfold str_size in Hline; lia)).
        cbn [mbind option_bind]. rewrite Hrun. by rewrite <- app_assoc.
      * rewrite filter_cons_True by (apply elem_of_app; right; left).
        by constructor.
    + exists cs. split.
      * intros acc. cbn [for_each]. rewrite parse_line_no_comma by done.
        apply Hrun.
      * by rewrite filter_cons_False.
Qed.

(** X1.  Decoding never fails, and it keeps exactly the lines that hold a
    comma: on every text of fewer than INT_MAX characters
    [string_to_contacts] returns a list of records that matches, one for
    one and in order, the lines of the text in which a comma occurs, each
    record being its line cut at the first comma; empty lines and lines
    without a comma add nothing, so there is at most one record for each
    line. *)
Theorem string_to_contacts_total (text : str) :
  str_size text < INT_MAX ->
  exists cs,
    string_to_contacts text = Some cs /\
    Forall2 (fun line c => line = name c ++ comma :: phone c /\ (comma ∉ name c))
            (filter (fun line : str => comma ∈ line) (getlines text)) cs /\
    (length cs <= length (getlines text))%nat.
Proof.
  intros Hfit. unfold string_to_contacts, getlines.
  destruct (parse_lines_spec (getlines_from [] text)) as (cs & Hrun & Hcs).
  { eapply Forall_impl; [apply (getlines_from_lengths [] text)|].
    cbn [length]. unfold str_size in *. intros l Hl. lia. }
  exists cs. split; [apply (Hrun [])|]. split; [done|].
  rewrite <- (Forall2_length _ _ _ Hcs). apply length_filter.
Qed.

Lemma string_to_contacts_total_witness :
  exists cs,
    string_to_contacts ("no delimiter"%string ++ [nl; nl] ++ "a,b"%string)
    = Some cs /\
    Forall2 (fun line c => line = name c ++ comma :: phone c /\ (comma ∉ name c))
            (filter (fun line : str => comma ∈ line)
               (getlines ("no delimiter"%string ++ [nl; nl] ++ "a,b"%string)))
            cs /\
    (length cs
     <= length (getlines ("no delimiter"%string ++ [nl; nl] ++ "a,b"%string)))%nat.
Proof.
  apply (string_to_contacts_total
           ("no delimiter"%string ++ [nl; nl] ++ "a,b"%string)).
  vm_compute. reflexivity.
Defined.

(** X2.  Reading is less forgiving than decoding: on a line of fewer
    than INT_MAX characters the loop body of [read_phonebook] throws
    ([substr] out of range) exactly when the first comma of the line is
    its last character; every other line is skipped or yields a record. *)
Theorem read_line_throws_iff (line : str) (cs : list Contact) :
  str_size line < INT_MAX ->
  (read_line line cs = None <->
   exists pre, line = pre ++ [comma] /\ comma ∉ pre).
Proof.
  intros Hfit. unfold read_line, find, str_size in *. unfold INT_MAX in Hfit.
  destruct line as [|a line'] eqn:Hline.
  { cbn. split; [done|]. intros (pre & Heq & _). by destruct pre. }
  rewrite <- Hline in *. replace (str_empty line) with false by by subst.
  destruct (find_from [comma] line 0) as [p|] eqn:Hfind.
  - apply find_from_char_split in Hfind as (pre & post & Hsplit & Hpre & ->).
    rewrite Hsplit in Hfit |- *. clear Hline.
    rewrite length_app in Hfit. cbn [length] in Hfit.
    change (pos_or_npos (Some ?x)) with x. rewrite Z.add_0_l.
    rewrite (to_int_id (Z.of_nat (length pre))) by int_range.
    rewrite (to_int_id (Z.of_nat (length pre) + 2)) by int_range.
    rewrite (to_size_t_id (Z.of_nat (length pre))) by lia.
    rewrite (to_size_t_id (Z.of_nat (length pre) + 2)) by lia.
    destruct (Z.eqb_spec (Z.of_nat (length pre)) npos) as [Heq|_].
    { unfold npos in Heq. lia. }
    unfold substr, str_size. rewrite length_app. cbn [length].
    destruct (Z.ltb_spec (Z.of_nat (length pre + S (length post))) 1); [lia|].
    cbn [mbind option_bind].
    destruct (Z.ltb_spec (Z.of_nat (length pre + S (length post)))
                         (Z.of_nat (length pre) + 2)) as [Hlt|Hge].
    + split; [|done]. intros _. exists pre.
      split; [|done]. destruct post; [done|]. cbn [length] in Hlt. lia.
    + cbn [mbind option_bind]. split; [done|].
      intros (pre' & Heq & Hpre').
      assert (length (pre ++ comma :: post) = length (pre' ++ [comma])) as Hl
        by by rewrite Heq.
      destruct post as [|b post]; [cbn [length] in Hge; lia|].
      rewrite !length_app in Hl. cbn [length] in Hl.
      exfalso. apply Hpre'. apply (list_elem_of_lookup_2 _ (length pre)).
      rewrite <- (lookup_app_l pre' [comma]) by lia.
      rewrite <- Heq. by apply list_lookup_middle.
  - split; [done|]. intros (pre & Heq & _).
    apply find_from_char_absent in Hfind. destruct Hfind.
    rewrite Heq. apply elem_of_app. right. left.
Qed.

Lemma read_line_throws_iff_witness :
  read_line ("Ann,"%string) [] = None <->
  exists pre, of_string "Ann," = pre ++ [comma] /\ comma ∉ pre.
Proof.
  apply (read_line_throws_iff ("Ann,"%string) []). vm_compute. reflexivity.
Defined.

Lemma for_each_appends {A B : Type} (xs : list A)
    (body : A -> list B -> option (list B)) (acc : list B) :
  (forall x acc, body x acc = (fun new => acc ++ new) <$> body x []) ->
  for_each xs body acc = (fun new => acc ++ new) <$> for_each xs body [].
Proof.
  intros Hbody. revert acc. induction xs as [|x xs IH]; intros acc; cbn.
  - by rewrite app_nil_r.
  - rewrite (Hbody x acc). destruct (body x []) as [new|]; [|done]. cbn.
    rewrite (IH (acc ++ new)), (IH new).
    destruct (for_each xs body []) as [rest|]; [|done]. cbn.
    by rewrite app_assoc.
Qed.

Lemma read_line_appends line acc :
  read_line line acc = (fun new => acc ++ new) <$> read_line line [].
Proof.
  unfold read_line. destruct (str_empty line); cbn; [by rewrite app_nil_r|].
  destruct (_ =? npos); cbn; [by rewrite app_nil_r|].
  destruct (substr line 1 _) as [n|]; [|done]. cbn.
  by destruct (substr line _ _) as [p|].
Qed.

(** X3.  [read_phonebook] only appends: the records already in the
    vector stay in front, unchanged, and what is added does not depend on
    them; reading the files [fs1 ++ fs2] is reading [fs1] and then [fs2]
    into the same vector. *)
Theorem read_phonebook_appends_in_order :
  (forall (files : list str) (contacts : list Contact),
     read_phonebook files contacts
     = (fun new => contacts ++ new) <$> read_phonebook files []) /\
  (forall (fs1 fs2 : list str) (contacts : list Contact),
     read_phonebook (fs1 ++ fs2) contacts
     = contacts' ← read_phonebook fs1 contacts; read_phonebook fs2 contacts').
Proof.
  split.
  - intros files contacts. unfold read_phonebook.
    apply for_each_appends. intros f acc.
    apply for_each_appends, read_line_appends.
  - intros fs1 fs2 contacts. apply for_each_app.
Qed.

(** X4.  A transferred line is split at its first comma: a list of
    records whose names hold no comma and whose fields hold no newline is
    decoded unchanged even when phone numbers hold commas, while a record
    whose name holds a comma comes back with the name cut at that comma
    and the rest of the name moved in front of the phone number. *)
Theorem string_to_contacts_splits_at_first_comma :
  (forall cs : list Contact,
     (forall c, c ∈ cs ->
        (comma ∉ name c) /\ (nl ∉ name c) /\ (nl ∉ phone c)) ->
     str_size (encode cs) <= INT_MAX ->
     string_to_contacts (encode cs) = Some cs) /\
  (forall n1 n2 p : str,
     (comma ∉ n1) -> (nl ∉ n1) -> (nl ∉ n2) -> (nl ∉ p) ->
     str_size (encode [mkContact (n1 ++ [comma] ++ n2) p]) <= INT_MAX ->
     string_to_contacts (encode [mkContact (n1 ++ [comma] ++ n2) p])
     = Some [mkContact n1 (n2 ++ [comma] ++ p)]).
Proof.
  split; [apply string_to_contacts_encode|].
  intros n1 n2 p Hc1 Hn1 Hn2 Hp Hfit.
  assert (encode [mkContact (n1 ++ [comma] ++ n2) p]
          = encode [mkContact n1 (n2 ++ [comma] ++ p)]) as Heq.
  { unfold encode, encode_line. cbn [fmap list_fmap concat name phone].
    by rewrite <- !app_assoc. }
  rewrite Heq in *. apply string_to_contacts_encode; [|done].
  intros c Hc. apply list_elem_of_singleton in Hc as ->. cbn [name phone].
  split; [done|split; [done|]].
  rewrite !not_elem_of_app, not_elem_of_cons.
  split; [done|split; [|done]].
  split; [discriminate|apply not_elem_of_nil].
Qed.

Lemma string_to_contacts_splits_at_first_comma_witness :
  string_to_contacts
    (encode [mkContact ("Lee"%string ++ [comma] ++ " Ann"%string) "1,2"%string])
  = Some [mkContact "Lee"%string (" Ann"%string ++ [comma] ++ "1,2"%string)].
Proof.
  apply (proj2 string_to_contacts_splits_at_first_comma); try absent.
  vm_compute. discriminate.
Defined.

(** ** Slices of the record vector *)

Lemma records_of_concat (cs : list Contact) a b c :
  0 <= a <= b -> b <= c ->
  records_of cs (a, Z.min (Z.of_nat (length cs)) b)
  ++ records_of cs (b, Z.min (Z.of_nat (length cs)) c)
  = records_of cs (a, Z.min (Z.of_nat (length cs)) c).
Proof.
  intros Hab Hbc. unfold records_of. cbn [fst snd].
  destruct (Z.le_gt_cases b (Z.of_nat (length cs))) as [Hb|Hb].
  - rewrite (Z.min_r _ b) by lia.
    replace (Z.to_nat b) with (Z.to_nat a + Z.to_nat (b - a))%nat by lia.
    rewrite <- drop_drop, take_take_drop. f_equal. lia.
  - rewrite (Z.min_l _ b), (Z.min_l _ c) by lia.
    replace (Z.to_nat (Z.of_nat (length cs) - b)) with 0%nat by lia.
    cbn [take]. by rewrite app_nil_r.
Qed.

(** X5.  Neighbouring slices concatenate: for [0 <= a <= b <= c] on a
    vector of at most INT_MAX records, the text of the records [a, b)
    followed by the text of the records [b, c) is the text of the records
    [a, c), whatever part of the ranges lies past the end of the vector. *)
Theorem vector_to_string_slices_concat
    (cs : list Contact) (a b c : Z) :
  0 <= a <= b -> b <= c -> Z.of_nat (length cs) <= INT_MAX ->
  exists x y,
    vector_to_string cs a b = Some x /\
    vector_to_string cs b c = Some y /\
    vector_to_string cs a c = Some (x ++ y).
Proof.
  intros Hab Hbc Hfit.
  rewrite !vector_to_string_spec by (done || lia).
  eexists _, _. repeat split.
  rewrite <- (records_of_concat cs a b c) by done.
  unfold encode. by rewrite fmap_app, concat_app.
Qed.

Lemma vector_to_string_slices_concat_witness :
  exists x y,
    vector_to_string
      [mkContact "Ann"%string "1"%string; mkContact "Bob"%string "2"%string] 0 1
    = Some x /\
    vector_to_string
      [mkContact "Ann"%string "1"%string; mkContact "Bob"%string "2"%string] 1 5
    = Some y /\
    vector_to_string
      [mkContact "Ann"%string "1"%string; mkContact "Bob"%string "2"%string] 0 5
    = Some (x ++ y).
Proof.
  apply (vector_to_string_slices_concat
    [mkContact "Ann"%string "1"%string; mkContact "Bob"%string "2"%string] 0 1 5);
    try lia. vm_compute. discriminate.
Defined.

Lemma vec_at_negative {A : Type} (v : list A) i : i < 0 -> vec_at v i = None.
Proof. intros Hi. unfold vec_at. by destruct (Z.ltb_spec i 0); [|lia]. Qed.

(** X6.  The bounds of [vector_to_string]: a range that starts at or past
    the end of the vector, or that ends at or before its start, gives the
    empty text without reading any record; a non-empty range that starts
    below zero reads outside the vector, which is undefined. *)
Theorem vector_to_string_bounds (cs : list Contact) (start end_ : Z) :
  Z.of_nat (length cs) <= INT_MAX ->
  (Z.of_nat (length cs) <= start \/ end_ <= start ->
   vector_to_string cs start end_ = Some []) /\
  (start < 0 -> start < end_ ->
   vector_to_string cs start end_ = None).
Proof.
  intros Hfit. unfold vector_to_string, for_range.
  rewrite to_int_id by int_range. split.
  - intros Hempty.
    by replace (Z.to_nat (Z.min (Z.of_nat (length cs)) end_ - start))
      with 0%nat by lia.
  - intros Hneg Hlt.
    destruct (Z.to_nat (Z.min (Z.of_nat (length cs)) end_ - start))
      as [|n] eqn:Hn; [lia|].
    cbn [for_loop]. by rewrite vec_at_negative by done.
Qed.

Lemma vector_to_string_bounds_witness :
  vector_to_string [mkContact "Ann"%string "1"%string] 1 2 = Some [] /\
  vector_to_string [mkContact "Ann"%string "1"%string] (-1) 1 = None.
Proof.
  destruct (vector_to_string_bounds [mkContact "Ann"%string "1"%string] 1 2)
    as [Hempty _]; [vm_compute; discriminate|].
  destruct (vector_to_string_bounds [mkContact "Ann"%string "1"%string] (-1) 1)
    as [_ Hneg]; [vm_compute; discriminate|].
  split; [apply Hempty; left; cbn; lia | apply Hneg; lia].
Defined.

(** ** The search term *)

Lemma check_hit c search :
  occurs_in search (name c) ->
  check c search = name c ++ [space] ++ phone c ++ [nl].
Proof.
  intros Hocc. unfold check, find.
  apply (find_from_occurs search (name c) 0) in Hocc. by destruct Hocc as [p ->].
Qed.

Lemma check_miss c search : ~ occurs_in search (name c) -> check c search = [].
Proof.
  intros Hno. unfold check, find.
  destruct (find_from search (name c) 0) as [p|] eqn:Hfind; [|done].
  destruct Hno. apply (find_from_occurs search (name c) 0). by rewrite Hfind.
Qed.

(** X7.  Edge cases of the search term: the empty term matches every
    record, and a term longer than the name matches none. *)
Theorem check_empty_or_long_term (c : Contact) :
  check c [] = name c ++ [space] ++ phone c ++ [nl] /\
  (forall search : str,
     (length (name c) < length search)%nat -> check c search = []).
Proof.
  split.
  - apply check_hit. by exists [], (name c).
  - intros search Hlong. apply check_miss. intros (pre & post & Heq).
    rewrite Heq, !length_app in Hlong. lia.
Qed.

Lemma check_empty_or_long_term_witness :
  check (mkContact "Al"%string "1"%string) "Alan"%string = [].
Proof.
  apply (proj2 (check_empty_or_long_term (mkContact "Al"%string "1"%string))).
  cbn. lia.
Defined.

(** X8.  Searching for a part of a term finds at least what the term
    finds: when [check] emits a line for a term, it emits the same line
    for every substring of that term. *)
Theorem check_monotone_in_term (c : Contact) (search part : str) :
  occurs_in part search -> check c search <> [] ->
  check c part = check c search.
Proof.
  intros (a & b & ->) Hhit.
  assert (occurs_in (a ++ part ++ b) (name c)) as (pre & post & Hname).
  { destruct (find (name c) (a ++ part ++ b)) as [p|] eqn:Hfind.
    - apply (find_from_occurs (a ++ part ++ b) (name c) 0).
      unfold find in Hfind. by rewrite Hfind.
    - destruct Hhit. unfold check. by rewrite Hfind. }
  rewrite (check_hit c (a ++ part ++ b)) by by exists pre, post.
  apply check_hit. exists (pre ++ a), (b ++ post).
  rewrite Hname. by rewrite <- !app_assoc.
Qed.

Lemma check_monotone_in_term_witness :
  check (mkContact "Bob Marley"%string "5"%string) "Mar"%string
  = check (mkContact "Bob Marley"%string "5"%string) "b Marl"%string.
Proof.
  apply check_monotone_in_term.
  - by exists (of_string "b "), (of_string "l").
  - vm_compute. discriminate.
Defined.

(** ** Order and limits of the framed transfer *)

(** X9.  Messages of one pair arrive in send order and leave nothing
    behind: after two [send_string] calls on an idle channel, two
    [receive_string] calls return the first text and then the second
    (texts without NUL, each of at most INT_MAX - 1 characters), and
    afterwards every channel holds what it held before. *)
Theorem framed_transfers_keep_order
    (t1 t2 : str) (me receiver : Z) (net : network) :
  str_size t1 + 1 <= INT_MAX -> str_size t2 + 1 <= INT_MAX ->
  (nul ∉ t1) -> (nul ∉ t2) ->
  in_flight net me receiver = [] ->
  exists net1 net2 net3 net4,
    send_string t1 me receiver net = Some net1 /\
    send_string t2 me receiver net1 = Some net2 /\
    receive_string me receiver net2 = Some (t1, net3) /\
    receive_string me receiver net3 = Some (t2, net4) /\
    forall s d, in_flight net4 s d = in_flight net s d.
Proof.
  intros Hfit1 Hfit2 Hnul1 Hnul2 Hidle.
  destruct (send_string_spec t1 me receiver net Hfit1) as (net1 & Hs1 & H1).
  destruct (send_string_spec t2 me receiver net1 Hfit2) as (net2 & Hs2 & H2).
  assert (in_flight net2 me receiver = frame t1 ++ frame t2) as Hq2.
  { by rewrite H2, decide_True, H1, decide_True, Hidle by done. }
  destruct (receive_string_spec t1 (frame t2) me receiver net2 Hfit1 Hq2)
    as (net3 & Hr3 & H3).
  assert (in_flight net3 me receiver = frame t2 ++ []) as Hq3.
  { by rewrite H3, decide_True, app_nil_r by done. }
  destruct (receive_string_spec t2 [] me receiver net3 Hfit2 Hq3)
    as (net4 & Hr4 & H4).
  rewrite before_nul_no_nul in Hr3, Hr4 by done.
  exists net1, net2, net3, net4. repeat split; try done.
  intros s d. rewrite H4.
  destruct (decide ((s, d) = (me, receiver))) as [[= -> ->]|Hne]; [done|].
  by rewrite H3, decide_False, H2, decide_False, H1, decide_False by done.
Qed.

Lemma framed_transfers_keep_order_witness :
  exists net1 net2 net3 net4,
    send_string "one"%string 0 1 ∅ = Some net1 /\
    send_string "two"%string 0 1 net1 = Some net2 /\
    receive_string 0 1 net2 = Some (of_string "one", net3) /\
    receive_string 0 1 net3 = Some (of_string "two", net4) /\
    forall s d, in_flight net4 s d = in_flight ∅ s d.
Proof.
  apply (framed_transfers_keep_order "one"%string "two"%string 0 1 ∅);
    try absent; try reflexivity; vm_compute; discriminate.
Defined.

Lemma to_int_wraps_negative z :
  2 ^ 31 <= z < 2 ^ 32 -> to_int z = z - 2 ^ 32.
Proof.
  intros Hz. unfold to_int.
  replace (z + 2 ^ 31) with ((z - 2 ^ 31) + 1 * 2 ^ 32) by lia.
  rewrite Z_mod_plus_full, Z.mod_small; lia.
Qed.

(** X10.  The length header is an [int]: for a text of INT_MAX up to
    2^32 - 2 characters the length [size() + 1] wraps to a negative
    count, and [send_string] does not deliver the text. *)
Theorem send_string_length_overflow
    (text : str) (me receiver : Z) (net : network) :
  INT_MAX <= str_size text <= 2 ^ 32 - 2 ->
  send_string text me receiver net = None.
Proof.
  intros Hsize. unfold send_string. unfold INT_MAX in Hsize.
  rewrite to_int_wraps_negative by lia.
  by destruct (Z.ltb_spec (str_size text + 1 - 2 ^ 32) 0); [|lia].
Qed.

Lemma send_string_length_overflow_witness :
  send_string (replicate (Z.to_nat INT_MAX) "a"%char) 1 0 ∅ = None.
Proof.
  apply send_string_length_overflow.
  unfold str_size. rewrite length_replicate, Z2Nat.id; unfold INT_MAX; lia.
Defined.

(** ** Runs of the search program *)

(** X11.  One process needs no transfer: with [size = 1] rank 0 searches
    all records itself, and the run writes what the kernel finds on the
    whole data set, for every data set of fewer than INT_MAX records,
    whatever characters its fields hold. *)
Theorem single_process_run (cs : list Contact) (search : str) :
  Z.of_nat (length cs) + 1 <= INT_MAX ->
  run 1 cs search = Some (search_all cs search).
Proof.
  intros Hfit. unfold run.
  assert (master_distribute 1 cs ∅ = Some ∅) as -> by done.
  cbn [mbind option_bind].
  rewrite (master_search_spec 1 cs ltac:(lia) Hfit).
  cbn [mbind option_bind].
  assert (for_range 1 1 (fun i net => worker_main i search net) ∅ = Some ∅)
    as -> by done.
  cbn [mbind option_bind].
  pose proof (records_tile 1 cs ltac:(lia) Hfit) as Htile.
  change (seqZ 0 1) with [0] in Htile. cbn [fmap list_fmap concat] in Htile.
  rewrite app_nil_r in Htile. by rewrite Htile.
Qed.

Lemma single_process_run_witness :
  run 1 [mkContact "A,B"%string ","%string] "B"%string
  = Some (search_all [mkContact "A,B"%string ","%string] "B"%string).
Proof. apply single_process_run. vm_compute. discriminate. Defined.

(** X12.  The number of processes does not change the output: for
    records that the text format carries (no comma, newline or NUL in a
    name, no newline or NUL in a phone number) and sizes that fit the
    [int]s of the program, two runs with different process counts write
    the same text. *)
Theorem run_independent_of_size
    (size1 size2 : Z) (cs : list Contact) (search : str) :
  1 <= size1 -> 1 <= size2 ->
  Z.of_nat (length cs) + size1 <= INT_MAX ->
  Z.of_nat (length cs) + size2 <= INT_MAX ->
  str_size (encode cs) + 1 <= INT_MAX ->
  (forall c, c ∈ cs -> transferable c) ->
  run size1 cs search = run size2 cs search.
Proof.
  intros H1 H2 Hfit1 Hfit2 Htext Hcs.
  by rewrite !run_is_search_all by done.
Qed.

Lemma run_independent_of_size_witness :
  run 2 [mkContact "Ann"%string "1"%string; mkContact "Bob"%string "2"%string;
         mkContact "Cy"%string "3"%string] "b"%string
  = run 5 [mkContact "Ann"%string "1"%string; mkContact "Bob"%string "2"%string;
           mkContact "Cy"%string "3"%string] "b"%string.
Proof.
  apply run_independent_of_size; try lia; try (vm_compute; discriminate).
  intros c Hc.
  repeat (apply elem_of_cons in Hc as [-> | Hc]; [repeat split; absent|]).
  by apply elem_of_nil in Hc.
Defined.

(** X13.  A worker whose rank is at least the number of records has an
    empty block: it still receives a framed text, the empty one. *)
Theorem surplus_worker_receives_empty_text
    (size rank : Z) (cs : list Contact) :
  1 <= rank < size ->
  Z.of_nat (length cs) + size <= INT_MAX ->
  str_size (encode cs) + 1 <= INT_MAX ->
  Z.of_nat (length cs) <= rank ->
  worker_received size cs rank = Some [].
Proof.
  intros Hrank Hfit Htext Hsurplus.
  rewrite worker_received_spec by (done || lia).
  rewrite rank_range_eq by lia. unfold records_of. cbn [fst snd].
  destruct (chunk_of_bounds (Z.of_nat (length cs)) size) as [Hc0 Hc];
    [lia..|done|].
  assert (Z.of_nat (length cs) <= rank * chunk_of (Z.of_nat (length cs)) size).
  { destruct (Z.eq_dec (chunk_of (Z.of_nat (length cs)) size) 0) as [Hz|Hnz].
    - rewrite Hz in *. lia.
    - assert (rank * 1 <= rank * chunk_of (Z.of_nat (length cs)) size)
        by (apply Z.mul_le_mono_nonneg_l; lia).
      lia. }
  by replace (Z.to_nat _) with 0%nat by lia.
Qed.

Lemma surplus_worker_receives_empty_text_witness :
  worker_received 4 [mkContact "Ann"%string "1"%string] 2 = Some [].
Proof.
  apply surplus_worker_receives_empty_text; try (cbn; lia);
    vm_compute; discriminate.
Defined.

(** ** The command line of the search program *)

Lemma read_phonebook_skips_empty_file files1 files2 :
  read_phonebook (files1 ++ [] :: files2) []
  = read_phonebook (files1 ++ files2) [].
Proof.
  unfold read_phonebook. rewrite !for_each_app.
  by destruct (for_each files1 _ []).
Qed.

Lemma search_main_runs size prog names term fs :
  names <> [] -> Z.of_nat (length names) + 2 <= INT_MAX ->
  Launch.search_main size (prog :: names ++ [term]) fs
  = (fun result => Launch.mkSearchOutcome 0 (Some result))
      <$> main size ((fun f => default [] (fs f)) <$> names) term.
Proof.
  intros Hnames Hfit. unfold Launch.search_main.
  cbn [length]. rewrite length_app. cbn [length].
  rewrite to_int_id by int_range.
  assert (0 < length names)%nat by (destruct names; [done|cbn; lia]).
  destruct (Z.ltb_spec (Z.of_nat (S (length names + 1))) 3); [lia|].
  rewrite (vec_at_lookup _ _ term); [|lia|].
  - cbn [mbind option_bind skipn].
    replace (Z.to_nat (Z.of_nat (S (length names + 1)) - 1 - 1))
      with (length names) by lia.
    rewrite drop_0, take_app_length.
    by destruct (main size _ term).
  - replace (Z.to_nat (Z.of_nat (S (length names + 1)) - 1))
      with (S (length names)) by lia.
    cbn [lookup list_lookup]. by apply list_lookup_middle.
Qed.

(** X14.  The command line of the search program: with fewer than three
    entries in [argv] every process returns 1 and nothing is read, sent
    or written; otherwise the last entry is the search term and the
    entries between the program name and the term are the files, read in
    that order; a file that cannot be opened counts as an empty file, so
    naming it changes nothing as long as another file is named. *)
Theorem search_main_command_line :
  (forall (size : Z) (argv : list str) (fs : str -> option str),
     (length argv < 3)%nat ->
     Launch.search_main size argv fs
     = Some (Launch.mkSearchOutcome 1 None)) /\
  (forall (size : Z) (prog : str) (names : list str) (term : str)
          (fs : str -> option str),
     names <> [] -> Z.of_nat (length names) + 2 <= INT_MAX ->
     Launch.search_main size (prog :: names ++ [term]) fs
     = (fun result => Launch.mkSearchOutcome 0 (Some result))
         <$> main size ((fun f => default [] (fs f)) <$> names) term) /\
  (forall (size : Z) (prog : str) (names1 names2 : list str)
          (missing term : str) (fs : str -> option str),
     fs missing = None -> names1 ++ names2 <> [] ->
     Z.of_nat (length (names1 ++ missing :: names2)) + 2 <= INT_MAX ->
     Launch.search_main size (prog :: (names1 ++ missing :: names2) ++ [term]) fs
     = Launch.search_main size (prog :: (names1 ++ names2) ++ [term]) fs).
Proof.
  split; [|split].
  - intros size argv fs Hshort. unfold Launch.search_main.
    rewrite to_int_id by int_range.
    by destruct (Z.ltb_spec (Z.of_nat (length argv)) 3); [|lia].
  - apply search_main_runs.
  - intros size prog names1 names2 missing term fs Hmissing Hnames Hfit.
    rewrite !length_app in Hfit. cbn [length] in Hfit.
    rewrite !search_main_runs; [|done|rewrite length_app; lia
                                |by destruct names1|rewrite length_app; cbn; lia].
    unfold main. rewrite !fmap_app. cbn [fmap list_fmap].
    by rewrite Hmissing, read_phonebook_skips_empty_file.
Qed.

Lemma search_main_command_line_witness :
  Launch.search_main 2 [of_string "search"; of_string "Bob"] (fun _ => None)
  = Some (Launch.mkSearchOutcome 1 None) /\
  Launch.search_main 2
    [of_string "search"; of_string "book.txt"; of_string "Bob"]
    (fun _ => Some (quoted_line "Bob"%string "1"%string))
  = (fun result => Launch.mkSearchOutcome 0 (Some result))
      <$> main 2 [quoted_line "Bob"%string "1"%string] "Bob"%string.
Proof.
  split.
  - apply (proj1 search_main_command_line). cbn. lia.
  - apply (proj1 (proj2 search_main_command_line) 2 (of_string "search")
             [of_string "book.txt"] (of_string "Bob")
             (fun _ => Some (quoted_line "Bob"%string "1"%string)));
      [done | vm_compute; discriminate].
Defined.

(** ** The matrix program beyond one element *)

Lemma vec_at_Forall {A : Type} (Q : A -> Prop) (v : list A) i x :
  Forall Q v -> vec_at v i = Some x -> Q x.
Proof.
  intros Hall. unfold vec_at. destruct (i <? 0); [done|].
  by apply Forall_lookup_1.
Qed.

Lemma cell_Forall (Q : Z -> Prop) (X : Matrix.tensor) k i j :
  Q 0 -> Forall (Forall (Forall Q)) X -> Q (Matrix.cell X k i j).
Proof.
  intros Hzero Hall. unfold Matrix.cell.
  destruct (vec_at X k) as [m|] eqn:Hm; [|done]. cbn.
  destruct (vec_at m i) as [row|] eqn:Hrow; [|done]. cbn.
  destruct (vec_at row j) as [v|] eqn:Hv; [|done]. cbn.
  eapply vec_at_Forall; [|exact Hv].
  eapply vec_at_Forall; [|exact Hrow].
  eapply vec_at_Forall; [exact Hall|exact Hm].
Qed.

Lemma kernel_Forall (Q : Z -> Prop) Kl M N P A B :
  (forall k i j, 0 <= k < Kl -> 0 <= i < M -> 0 <= j < P ->
     Q (Matrix.dot_cell N A B k i j)) ->
  Forall (Forall (Forall Q)) (Matrix.kernel Kl M N P A B).
Proof.
  intros Hcell. unfold Matrix.kernel.
  apply Forall_fmap, Forall_forall. intros k Hk. apply elem_of_seqZ in Hk.
  apply Forall_fmap, Forall_forall. intros i Hi. apply elem_of_seqZ in Hi.
  apply Forall_fmap, Forall_forall. intros j Hj. apply elem_of_seqZ in Hj.
  cbn. apply Hcell; lia.
Qed.

(** The shape of the local result: [Kl] matrices of [M] rows of [P]
    elements each, whatever the shape of the inputs. *)
Lemma kernel_shape (Kl M N P : Z) (A B : Matrix.tensor) :
  length (Matrix.kernel Kl M N P A B) = Z.to_nat Kl /\
  Forall (fun m =>
            length m = Z.to_nat M /\
            Forall (fun row => length row = Z.to_nat P) m)
         (Matrix.kernel Kl M N P A B).
Proof.
  unfold Matrix.kernel. split.
  - by rewrite length_fmap, length_seqZ.
  - apply Forall_fmap, Forall_forall. intros k _. cbn. split.
    + by rewrite length_fmap, length_seqZ.
    + apply Forall_fmap, Forall_forall. intros i _. cbn.
      by rewrite length_fmap, length_seqZ.
Qed.

(** X15.  Without a bound on the inputs the result stays strictly
    between -100 and 100, since C's [%] keeps the sign of the sum: every
    element of the local result lies in [-99, 99], and a negative input
    does give a negative element, -91 for A = -7 and B = 13. *)
Theorem kernel_elements_within_99 :
  (forall (Kl M N P : Z) (A B : Matrix.tensor) (k i j : Z),
     -99 <= Matrix.cell (Matrix.kernel Kl M N P A B) k i j <= 99) /\
  Matrix.kernel 1 1 1 1 [[[-7]]] [[[13]]] = [[[-91]]].
Proof.
  split; [|reflexivity]. intros Kl M N P A B k i j.
  apply (cell_Forall (fun v => -99 <= v <= 99)); [lia|].
  apply kernel_Forall. intros k' i' j' _ _ _. unfold Matrix.dot_cell.
  match goal with |- _ <= Z.rem ?r 100 <= _ =>
    pose proof (Z.rem_bound_abs r 100 ltac:(lia)) end.
  lia.
Qed.

Lemma scatter_blocks_prefix (X : Matrix.tensor) count (n : nat) :
  0 <= count ->
  concat (Matrix.scatter_block X count <$> seqZ 0 (Z.of_nat n))
  = take (Z.to_nat (Z.of_nat n * count)) X.
Proof.
  intros Hcount. induction n as [|n IH]; [done|].
  rewrite seqZ_S, fmap_app, concat_app, IH. cbn [fmap list_fmap concat].
  rewrite app_nil_r, Z.add_0_l. unfold Matrix.scatter_block.
  rewrite take_take_drop. f_equal. lia.
Qed.

(** X16.  Scatter and gather are inverse: when the buffer of rank 0
    holds [size * count] matrices, every rank receives exactly [count] of
    them and the blocks of ranks 0, ..., size-1 put together in rank
    order are the buffer again. *)
Theorem scatter_then_gather (X : Matrix.tensor) (count size : Z) :
  0 <= count -> 0 <= size ->
  Z.of_nat (length X) = size * count ->
  (forall rank, 0 <= rank < size ->
     length (Matrix.scatter_block X count rank) = Z.to_nat count) /\
  concat (Matrix.scatter_block X count <$> seqZ 0 size) = X.
Proof.
  intros Hcount Hsize Hlen. split.
  - intros rank Hrank. unfold Matrix.scatter_block.
    rewrite length_take, length_drop. nia.
  - rewrite <- (Z2Nat.id size Hsize), scatter_blocks_prefix by done.
    apply firstn_all2. lia.
Qed.

Lemma scatter_then_gather_witness :
  concat (Matrix.scatter_block [[[1]]; [[2]]; [[3]]; [[4]]] 2 <$> seqZ 0 2)
  = [[[1]]; [[2]]; [[3]]; [[4]]].
Proof.
  apply (scatter_then_gather [[[1]]; [[2]]; [[3]]; [[4]]] 2 2); [lia|lia|done].
Defined.

Lemma init_tensor_Forall D1 D2 D3 rand first :
  (forall n, 0 <= rand n) ->
  Forall (Forall (Forall (fun v => 0 <= v <= 99)))
         (Launch.init_tensor D1 D2 D3 rand first).
Proof.
  intros Hrand. unfold Launch.init_tensor.
  apply Forall_fmap, Forall_forall. intros k _.
  apply Forall_fmap, Forall_forall. intros i _.
  apply Forall_fmap, Forall_forall. intros j _. cbn.
  pose proof (Z.rem_bound_pos (rand (first + (k * D2 + i) * D3 + j)) 100
                (Hrand _) ltac:(lia)). lia.
Qed.

(** X17.  A whole run of the matrix program: when the process count
    divides K, [rand()] returns non-negative numbers and 99*N fits an
    [int], rank 0 ends with the products of all K matrix pairs, each
    element the sum of the products modulo 100 taken modulo 100, and
    every element in [0, 99]. *)
Theorem matrix_run_result
    (d : Matrix.dims) (size : Z) (rand : Z -> Z) :
  1 <= size -> 0 <= Matrix.K d -> Z.rem (Matrix.K d) size = 0 ->
  99 * Matrix.N d <= INT_MAX ->
  (forall n, 0 <= rand n) ->
  exists R,
    Launch.matrix_run d size rand = Some R /\
    length R = Z.to_nat (Matrix.K d) /\
    (forall k i j,
       0 <= k < Matrix.K d -> 0 <= i < Matrix.M d -> 0 <= j < Matrix.P d ->
       Matrix.cell R k i j
       = dot_mod100 (Matrix.N d) (Launch.init_A d rand) (Launch.init_B d rand)
                    k i j) /\
    (forall k i j, 0 <= Matrix.cell R k i j <= 99).
Proof.
  intros Hsize HK Hrem Hfit Hrand. unfold Launch.matrix_run.
  rewrite matrix_gather_is_whole_kernel by done.
  assert (forall k i j l,
    0 <= Matrix.cell (Launch.init_A d rand) k i l <= 99 /\
    0 <= Matrix.cell (Launch.init_B d rand) k l j <= 99) as Hin.
  { intros k i j l.
    split; apply (cell_Forall (fun v => 0 <= v <= 99));
      try lia; by apply init_tensor_Forall. }
  eexists. split; [done|]. split; [apply kernel_shape|]. split.
  - intros k i j Hk Hi Hj. rewrite cell_kernel by done.
    apply dot_cell_spec; [done|]. intros l _. apply Hin.
  - intros k i j. apply (cell_Forall (fun v => 0 <= v <= 99)); [lia|].
    apply kernel_Forall. intros k' i' j' _ _ _.
    apply dot_cell_spec; [done|]. intros l _. apply Hin.
Qed.

Lemma matrix_run_result_witness :
  exists R,
    Launch.matrix_run Matrix.program_dims 4 Z.abs = Some R /\
    length R = Z.to_nat (Matrix.K Matrix.program_dims) /\
    (forall k i j,
       0 <= k < Matrix.K Matrix.program_dims ->
       0 <= i < Matrix.M Matrix.program_dims ->
       0 <= j < Matrix.P Matrix.program_dims ->
       Matrix.cell R k i j
       = dot_mod100 (Matrix.N Matrix.program_dims)
           (Launch.init_A Matrix.program_dims Z.abs)
           (Launch.init_B Matrix.program_dims Z.abs) k i j) /\
    (forall k i j, 0 <= Matrix.cell R k i j <= 99).
Proof.
  apply (matrix_run_result Matrix.program_dims 4 Z.abs).
  - lia.
  - cbn. lia.
  - reflexivity.
  - cbn. unfold INT_MAX. lia.
  - intros n. lia.
Defined.

(** X18.  The result of the matrix program does not depend on the number
    of processes: any two process counts that divide K gather the same
    matrices. *)
Theorem gathered_independent_of_size
    (d : Matrix.dims) (size1 size2 : Z) (A B : Matrix.tensor) :
  1 <= size1 -> 1 <= size2 -> 0 <= Matrix.K d ->
  Z.rem (Matrix.K d) size1 = 0 -> Z.rem (Matrix.K d) size2 = 0 ->
  Matrix.gathered d size1 A B = Matrix.gathered d size2 A B.
Proof.
  intros H1 H2 HK Hrem1 Hrem2.
  by rewrite !matrix_gather_is_whole_kernel by done.
Qed.

Lemma gathered_independent_of_size_witness :
  Matrix.gathered (Matrix.mkDims 4 1 2 1) 2
    [[[1; 2]]; [[3; 4]]; [[5; 6]]; [[7; 8]]]
    [[[1]; [2]]; [[3]; [4]]; [[5]; [6]]; [[7]; [8]]]
  = Matrix.gathered (Matrix.mkDims 4 1 2 1) 4
    [[[1; 2]]; [[3; 4]]; [[5; 6]]; [[7; 8]]]
    [[[1]; [2]]; [[3]; [4]]; [[5]; [6]]; [[7]; [8]]].
Proof.
  apply gathered_independent_of_size; try reflexivity; cbn; lia.
Defined.

(** ** Reading a well-formed file *)

Lemma getlines_from_lines (ls : list str) :
  Forall (fun l => nl ∉ l) ls ->
  getlines_from [] (concat ((fun l => l ++ [nl]) <$> ls)) = ls.
Proof.
  induction 1 as [|l ls Hl _ IH]; [done|].
  cbn [fmap list_fmap concat]. rewrite <- app_assoc. cbn [app].
  by rewrite getlines_from_line, IH by done.
Qed.

Lemma read_quoted_lines (cs acc : list Contact) :
  (forall c, c ∈ cs ->
     (comma ∉ name c) /\
     str_size (quoted_line (name c) (phone c)) <= INT_MAX) ->
  for_each ((fun c => quoted_line (name c) (phone c)) <$> cs) read_line acc
  = Some (acc ++ cs).
Proof.
  revert acc. induction cs as [|c cs IH]; intros acc Hcs;
    cbn [fmap list_fmap for_each].
  - by rewrite app_nil_r.
  - destruct (Hcs c) as [Hcomma Hfit]; [left|].
    rewrite read_line_quoted by done. cbn [mbind option_bind].
    rewrite IH by (intros c' Hc'; apply Hcs; by right).
    destruct c. by rewrite <- app_assoc.
Qed.

Lemma read_quoted_file (cs : list Contact) :
  (forall c, c ∈ cs ->
     (comma ∉ name c) /\ (nl ∉ name c) /\ (nl ∉ phone c) /\
     str_size (quoted_line (name c) (phone c)) <= INT_MAX) ->
  read_phonebook [PhonebookFile.quoted_file cs] [] = Some cs.
Proof.
  intros Hcs. unfold read_phonebook, PhonebookFile.quoted_file, getlines.
  cbn [for_each].
  rewrite (list_fmap_compose (fun c => quoted_line (name c) (phone c))
                             (fun l => l ++ [nl])).
  rewrite getlines_from_lines.
  - rewrite read_quoted_lines; [done|].
    intros c Hc. destruct (Hcs c Hc) as (? & ? & ? & ?). done.
  - apply Forall_fmap, Forall_forall. intros c Hc.
    destruct (Hcs c Hc) as (_ & Hn & Hp & _). cbn. unfold quoted_line.
    repeat (rewrite not_elem_of_cons || rewrite not_elem_of_app).
    repeat split; try done; try discriminate; apply not_elem_of_nil.
Qed.

(** X19.  A well-formed file is read back as its records: when every
    line is ["name","phone"] with no comma in the name, no newline in
    either field and at most INT_MAX characters, [read_phonebook] returns
    the records of the lines, in the order of the lines. *)
Theorem read_phonebook_quoted_file (cs : list Contact) :
  (forall c, c ∈ cs ->
     (comma ∉ name c) /\ (nl ∉ name c) /\ (nl ∉ phone c) /\
     str_size (quoted_line (name c) (phone c)) <= INT_MAX) ->
  read_phonebook [PhonebookFile.quoted_file cs] [] = Some cs.
Proof. apply read_quoted_file. Qed.

Lemma read_phonebook_quoted_file_witness :
  read_phonebook
    [PhonebookFile.quoted_file
       [mkContact "Ann"%string "1,2"%string; mkContact "Bob"%string "3"%string]] []
  = Some [mkContact "Ann"%string "1,2"%string; mkContact "Bob"%string "3"%string].
Proof.
  apply read_phonebook_quoted_file. intros c Hc.
  repeat (apply elem_of_cons in Hc as [-> | Hc];
          [repeat split; try absent; vm_compute; discriminate|]).
  by apply elem_of_nil in Hc.
Defined.

(** ** The search program from file to output *)

Lemma length_quoted_file_cons c cs :
  length (PhonebookFile.quoted_file (c :: cs))
  = (length (encode_line c) + 4 + length (PhonebookFile.quoted_file cs))%nat.
Proof.
  unfold PhonebookFile.quoted_file, quoted_line, encode_line.
  cbn [fmap list_fmap concat]. rewrite !length_app. cbn [length]. lia.
Qed.

Lemma length_encode_le_quoted_file cs :
  (length (encode cs) + 4 * length cs
   <= length (PhonebookFile.quoted_file cs))%nat.
Proof.
  induction cs as [|c cs IH]; [done|].
  rewrite length_quoted_file_cons, length_encode_cons. cbn [length]. lia.
Qed.

Lemma length_quoted_line_le_file c cs :
  c ∈ cs ->
  (length (quoted_line (name c) (phone c))
   <= length (PhonebookFile.quoted_file cs))%nat.
Proof.
  induction 1 as [c cs|c c' cs _ IH]; rewrite length_quoted_file_cons.
  - rewrite length_encode_line. unfold quoted_line.
    rewrite !length_app. cbn [length]. lia.
  - lia.
Qed.

(** X20.  The search program from file to output: for a well-formed
    file (lines ["name","phone"], no comma, newline or NUL in a name, no
    newline or NUL in a phone number, fewer than INT_MAX characters in
    all) and any number of processes, the run exits with 0 and
    [output.txt] holds the line "name phone" of every record whose name
    contains the search term, in the order of the file. *)
Theorem search_program_end_to_end
    (size : Z) (prog file term : str) (fs : str -> option str)
    (cs : list Contact) :
  1 <= size ->
  fs file = Some (PhonebookFile.quoted_file cs) ->
  (forall c, c ∈ cs -> transferable c) ->
  Z.of_nat (length cs) + size <= INT_MAX ->
  str_size (PhonebookFile.quoted_file cs) < INT_MAX ->
  Launch.search_main size [prog; file; term] fs
  = Some (Launch.mkSearchOutcome 0 (Some (search_all cs term))).
Proof.
  intros Hsize Hfile Hcs Hfit Htext.
  change [prog; file; term] with (prog :: [file] ++ [term]).
  rewrite (search_main_runs size prog [file] term fs);
    [|done|cbn; unfold INT_MAX; lia].
  cbn [fmap list_fmap]. rewrite Hfile. cbn [default from_option id].
  unfold main. unfold str_size in Htext.
  rewrite read_quoted_file.
  - cbn [mbind option_bind]. rewrite run_is_search_all; [done..| |done].
    pose proof (length_encode_le_quoted_file cs). unfold str_size. lia.
  - intros c Hc. destruct (Hcs c Hc) as (? & ? & _ & ? & _).
    pose proof (length_quoted_line_le_file c cs Hc).
    unfold str_size. repeat split; try done. lia.
Qed.

Lemma search_program_end_to_end_witness :
  Launch.search_main 3
    [of_string "search"; of_string "book.txt"; of_string "Bob"]
    (fun _ => Some (PhonebookFile.quoted_file
                      [mkContact "Bob Marley"%string "555-1212"%string;
                       mkContact "Ann Lee"%string "555-0000"%string]))
  = Some (Launch.mkSearchOutcome 0
            (Some (search_all
                     [mkContact "Bob Marley"%string "555-1212"%string;
                      mkContact "Ann Lee"%string "555-0000"%string]
                     "Bob"%string))).
Proof.
  apply search_program_end_to_end; try reflexivity; try lia;
    try (vm_compute; discriminate || reflexivity).
  intros c Hc.
  repeat (apply elem_of_cons in Hc as [-> | Hc]; [repeat split; absent|]).
  by apply elem_of_nil in Hc.
Defined.
